(** * image-bed: a shallow embedding of the three GitHub image clients

    The repository holds three TypeScript command-line clients of the GitHub
    "contents" API: an uploader ([script/upload-image.ts], class
    [GitHubImageUploader]), a lister ([server/script/list-image.ts], class
    [GitHubImageLister]) and a deleter (class [GitHubImageDeleter]).  This
    file embeds the functions the specification describes and proves the
    properties it states about them, amended where the code differs.

    Conventions of the embedding.
    - A JavaScript string is a Rocq [string]: the UTF-8 bytes of its text.
      The characters the code tests for ('/', '.', '@', the prefix "http")
      are ASCII, and the line terminators U+2028 and U+2029 are recognised
      by their three bytes, so the tests agree with those on UTF-16 code
      units.  Only a step of one position (in [Deleter.fallback]) is the
      same step in bytes and in units just for an ASCII character.
    - A byte count is a natural number.  The division and the rounding of
      [formatSize] are exact; its logarithm is the exact one, which is the
      value computed in doubles outside three byte counts (see [Lister]).
    - A thrown exception is a value of type [Exn]; code that can throw
      returns [Exn + A], and code that also talks to the outside world runs
      in the monad [M] over a [World] that records the HTTP requests sent
      and the console lines printed, in order.
    - Everything the code obtains from its environment (the RegExp engine,
      the remote service, the local disk, the clock) is a field of [Env].
      General theorems quantify over every [Env]; scenarios are evaluated
      in the concrete environment [Sim.env]. *)

From Stdlib Require Import ZArith NArith Lia String Ascii List.
From Stdlib Require Import DecimalString DecimalPos DecimalN.
From stdpp Require Import base option list strings gmap.

Open Scope string_scope.
Open Scope list_scope.

(* ===================================================================== *)
(** * JavaScript built-ins used by the clients *)
(* ===================================================================== *)

Module JS.

(** [s.startsWith(p)] *)
Definition startsWith (s p : string) : bool := String.prefix p s.

(** [s.indexOf(p)]; JavaScript's [-1] is [None]. *)
Fixpoint indexOf (s p : string) : option nat :=
  if String.prefix p s then Some 0%nat
  else match s with
       | EmptyString => None
       | String _ s' => S <$> indexOf s' p
       end.

(** [s.substring(start)] for a non-negative [start]; an index past the
    end is clamped to the length, so the result is then empty. *)
Fixpoint substring (s : string) (start : nat) : string :=
  match start, s with
  | O, _ => s
  | S n, String _ s' => substring s' n
  | S _, EmptyString => EmptyString
  end.

(** [s.endsWith(p)] *)
Definition endsWith (s p : string) : bool :=
  String.prefix p (substring s (String.length s - String.length p)).

(** Number-to-string conversion of a non-negative integer, as performed
    by a template literal or by [+] with a string. *)
Definition show_N (n : N) : string := NilEmpty.string_of_uint (N.to_uint n).

(** The same for an arbitrary integer. *)
Definition show_Z (z : Z) : string :=
  match z with
  | Zneg p => "-" +:+ show_N (Npos p)
  | _ => show_N (Z.to_N z)
  end.

(** [a || b] on strings: the empty string is falsy. *)
Definition or_else (a b : string) : string :=
  if String.eqb a "" then b else a.

(** [a || b] where [a] may also be [undefined]. *)
Definition opt_or_else (a : option string) (b : string) : string :=
  match a with
  | Some x => or_else x b
  | None => b
  end.

(** A string that may be [undefined], as a template literal prints it. *)
Definition show_opt (a : option string) : string :=
  match a with
  | Some x => x
  | None => "undefined"
  end.

End JS.

(* ===================================================================== *)
(** * Exceptions *)
(* ===================================================================== *)

(** The body of an HTTP error response: the API's own [message] field, when
    the body has one. *)
Record ErrorData := { data_message : option string }.

(** [error.response] of an axios error: present when the server answered
    with a non-2xx status, absent for transport failures. *)
Record ErrorResponse := { status : N; data : option ErrorData }.

(** The exceptions the clients can see.  [axios.isAxiosError] holds exactly
    of [AxiosError]; every exception carries a [message]. *)
Inductive Exn :=
| Error (message : string)
| AxiosError (response : option ErrorResponse) (message : string).

Definition isAxiosError (e : Exn) : bool :=
  match e with
  | AxiosError _ _ => true
  | Error _ => false
  end.

(** [error.message] *)
Definition exn_message (e : Exn) : string :=
  match e with
  | Error m => m
  | AxiosError _ m => m
  end.

(** [error.response], which only an axios error can have. *)
Definition exn_response (e : Exn) : option ErrorResponse :=
  match e with
  | Error _ => None
  | AxiosError r _ => r
  end.

(** [error.response?.status] *)
Definition response_status (r : option ErrorResponse) : option N :=
  status <$> r.

(** [error.response?.data?.message] *)
Definition response_data_message (r : option ErrorResponse) : option string :=
  match r with
  | Some {| data := Some d |} => data_message d
  | _ => None
  end.

(* ===================================================================== *)
(** * Node's [path] module (POSIX flavour) *)
(* ===================================================================== *)

Module Path.

Definition slash : ascii := "/"%char.
Definition dot : ascii := "."%char.

(** Characters of the last path component, scanning the reversed path:
    [drop_slashes] skips the trailing separators, [take_component]
    collects characters up to the next separator (the accumulator ends up
    in reading order). *)
Fixpoint drop_slashes (rev_path : list ascii) : list ascii :=
  match rev_path with
  | c :: r => if Ascii.eqb c slash then drop_slashes r else rev_path
  | [] => []
  end.

Fixpoint take_component (rev_path acc : list ascii) : list ascii :=
  match rev_path with
  | c :: r => if Ascii.eqb c slash then acc else take_component r (c :: acc)
  | [] => acc
  end.

(** The characters of the last portion of a path, trailing separators
    ignored. *)
Definition last_component (p : string) : list ascii :=
  take_component (drop_slashes (rev (list_ascii_of_string p))) [].

(** [path.basename(p)] *)
Definition basename (p : string) : string :=
  string_of_list_ascii (last_component p).

(** Index of the last '.' of a component, if any. *)
Fixpoint last_dot (c : list ascii) : option nat :=
  match c with
  | [] => None
  | a :: r =>
      match last_dot r with
      | Some i => Some (S i)
      | None => if Ascii.eqb a dot then Some 0%nat else None
      end
  end.

(** Where a component divides into stem and extension: at its last
    '.', unless it has none, or that '.' is its first character, or the
    component is exactly ".."; the extension is then empty. *)
Definition stem_length (c : list ascii) : nat :=
  match last_dot c with
  | Some (S i) => if bool_decide (c = [dot; dot]) then List.length c else S i
  | _ => List.length c
  end.

(** [path.extname(p)]: the extension of the last component. *)
Definition extname (p : string) : string :=
  let c := last_component p in
  string_of_list_ascii (drop (stem_length c) c).

(** [path.basename(p, ext)]: the last component with a trailing [ext]
    removed, unless [ext] is empty or is the whole component.  This
    agrees with Node whenever [ext] is empty or a proper suffix of the
    last component, which is the case for [ext = extname p]. *)
Definition basename_ext (p ext : string) : string :=
  let c := basename p in
  if String.eqb ext "" then c
  else if JS.endsWith c ext && negb (String.eqb c ext)
       then string_of_list_ascii
              (take (String.length c - String.length ext) (list_ascii_of_string c))
       else c.

End Path.

(* ===================================================================== *)
(** * A regular-expression engine for the fragment the deleter needs *)
(* ===================================================================== *)

(** [parsePath] builds its two patterns by splicing the configured owner,
    repository and branch, unescaped, into a template.  The engine below
    implements the part of the ECMAScript pattern language those templates
    use with ordinary configuration values: literal characters, escaped
    syntax characters, [.], capturing and non-capturing groups and the
    greedy quantifiers [?], [*] and [+].  Anything else (classes, braces,
    anchors, alternation, lazy quantifiers, look-around, other escapes) is
    reported as outside the fragment. *)

Module RegExp.

Inductive re :=
| Eps
| Chr (c : ascii)
| Any
| Seq (r1 r2 : re)
| Group (index : option nat) (r : re)
| Opt (r : re)
| Star (r : re)
| Plus (r : re).

Fixpoint seq (rs : list re) : re :=
  match rs with
  | [] => Eps
  | r :: rs' => Seq r (seq rs')
  end.

(** *** Lexical analysis *)

Inductive quantifier := QOpt | QStar | QPlus.

Inductive token :=
| TChr (c : ascii)
| TDot
| TOpen (capturing : bool)
| TClose
| TQuant (q : quantifier).

Inductive char_class :=
| CBackslash | COpen | CClose | CDot
| CQuant (q : quantifier)
| CUnsupported
| CLiteral.

Definition classify (c : ascii) : char_class :=
  if Ascii.eqb c "\" then CBackslash
  else if Ascii.eqb c "(" then COpen
  else if Ascii.eqb c ")" then CClose
  else if Ascii.eqb c "." then CDot
  else if Ascii.eqb c "?" then CQuant QOpt
  else if Ascii.eqb c "*" then CQuant QStar
  else if Ascii.eqb c "+" then CQuant QPlus
  else if bool_decide (c ∈ list_ascii_of_string "[]{}^$|") then CUnsupported
  else CLiteral.

(** The characters that may follow a backslash as themselves. *)
Definition is_syntax_char (c : ascii) : bool :=
  bool_decide (c ∈ list_ascii_of_string "\^$.*+?()[]{}|/").

(** A string of characters that stand for themselves in a pattern. *)
Fixpoint plain (s : string) : bool :=
  match s with
  | EmptyString => true
  | String c s' =>
      match classify c with
      | CLiteral => plain s'
      | _ => false
      end
  end.

Inductive lexed :=
| LOk (ts : list token)
| LSyntaxError (msg : string)
| LUnsupported.

Definition lcons (t : token) (l : lexed) : lexed :=
  match l with
  | LOk ts => LOk (t :: ts)
  | failure => failure
  end.

Fixpoint tokenize (src : string) : lexed :=
  match src with
  | EmptyString => LOk []
  | String c rest =>
      match classify c, rest with
      | CBackslash, String e rest' =>
          if is_syntax_char e then lcons (TChr e) (tokenize rest') else LUnsupported
      | CBackslash, EmptyString => LSyntaxError "\ at end of pattern"
      | COpen, String "?" (String ":" rest') => lcons (TOpen false) (tokenize rest')
      | COpen, String "?" _ => LUnsupported
      | COpen, _ => lcons (TOpen true) (tokenize rest)
      | CClose, _ => lcons TClose (tokenize rest)
      | CDot, _ => lcons TDot (tokenize rest)
      | CQuant q, _ => lcons (TQuant q) (tokenize rest)
      | CUnsupported, _ => LUnsupported
      | CLiteral, _ => lcons (TChr c) (tokenize rest)
      end
  end.

(** *** Syntax analysis *)

Inductive parsed :=
| POk (r : re)
| PSyntaxError (msg : string)
| PUnsupported.

Definition quantified (r : re) : bool :=
  match r with
  | Opt _ | Star _ | Plus _ => true
  | _ => false
  end.

Definition quantify (q : quantifier) (r : re) : re :=
  match q with
  | QOpt => Opt r
  | QStar => Star r
  | QPlus => Plus r
  end.

(** Builds the expression from the tokens.  [current] holds the terms of
    the innermost open group, last one first; [stack] holds, for each
    open group, its number (if it captures) and the terms that precede
    it; [n] is the number of the next capturing group, counted by
    opening parentheses from 1.  A quantifier applies to the last term;
    after a quantified term, a [?] would make it lazy and another
    quantifier is an error. *)
Fixpoint build (ts : list token) (current : list re)
    (stack : list (option nat * list re)) (n : nat) : parsed :=
  match ts with
  | [] =>
      match stack with
      | [] => POk (seq (rev current))
      | _ :: _ => PSyntaxError "Unterminated group"
      end
  | TChr c :: ts' => build ts' (Chr c :: current) stack n
  | TDot :: ts' => build ts' (Any :: current) stack n
  | TOpen true :: ts' => build ts' [] ((Some n, current) :: stack) (S n)
  | TOpen false :: ts' => build ts' [] ((None, current) :: stack) n
  | TClose :: ts' =>
      match stack with
      | (index, outer) :: stack' =>
          build ts' (Group index (seq (rev current)) :: outer) stack' n
      | [] => PSyntaxError "Unmatched ')'"
      end
  | TQuant q :: ts' =>
      match current with
      | [] => PSyntaxError "Nothing to repeat"
      | last :: before =>
          if quantified last then
            match q with
            | QOpt => PUnsupported
            | _ => PSyntaxError "Nothing to repeat"
            end
          else build ts' (quantify q last :: before) stack n
      end
  end.

Definition parse (src : string) : parsed :=
  match tokenize src with
  | LOk ts => build ts [] [] 1
  | LSyntaxError msg => PSyntaxError msg
  | LUnsupported => PUnsupported
  end.

(** [.] matches any character except a line terminator: LF, CR, U+2028
    and U+2029.  A string holds the UTF-8 bytes of its text, in which the
    last two are the sequences E2 80 A8 and E2 80 A9;
    [is_line_terminator s] tells whether one of the four starts [s]. *)
Definition is_line_terminator (s : string) : bool :=
  String.prefix (String "010" "") s
  || String.prefix (String "013" "") s
  || String.prefix (String "226" (String "128" (String "168" ""))) s
  || String.prefix (String "226" (String "128" (String "169" ""))) s.

(** The characters of [s] consumed on the way to its suffix [s']. *)
Definition consumed (s s' : string) : string :=
  string_of_list_ascii
    (take (String.length s - String.length s') (list_ascii_of_string s)).

Definition shorter (s' s : string) : bool :=
  (String.length s' <? String.length s)%nat.

(** The result of a match: the final value of capture group 1. *)
Definition result : Type := option (option string).
Definition cont : Type := string → option string → result.

(** Greedy iteration of [step]: as long as an iteration succeeds and
    consumes input, try one more; otherwise go on with [k].  The fuel
    bounds the number of iterations by the length of the input. *)
Fixpoint iterate (step : string → option string → cont → result) (k : cont)
    (fuel : nat) (s : string) (cap : option string) : result :=
  match fuel with
  | O => k s cap
  | S fuel' =>
      match step s cap
              (λ s' cap', if shorter s' s then iterate step k fuel' s' cap' else None) with
      | Some res => Some res
      | None => k s cap
      end
  end.

(** Backtracking matcher in continuation-passing style.  [cap] is the
    current value of capture group 1; [k] is what remains to be matched.
    Alternatives are tried in the engine's order (greedy first), and an
    iteration of a quantifier that is not required may not be empty. *)
Fixpoint run (r : re) (s : string) (cap : option string) (k : cont) : result :=
  match r with
  | Eps => k s cap
  | Chr c =>
      match s with
      | String a s' => if Ascii.eqb a c then k s' cap else None
      | EmptyString => None
      end
  | Any =>
      match s with
      | String a s' => if is_line_terminator s then None else k s' cap
      | EmptyString => None
      end
  | Seq r1 r2 => run r1 s cap (λ s' cap', run r2 s' cap' k)
  | Group (Some 1%nat) r' => run r' s cap (λ s' _, k s' (Some (consumed s s')))
  | Group _ r' => run r' s cap k
  | Opt r' => iterate (run r') k 1 s cap
  | Star r' => iterate (run r') k (String.length s) s cap
  | Plus r' =>
      run r' s cap (λ s' cap', iterate (run r') k (String.length s') s' cap')
  end.

(** A string without line terminators. *)
Fixpoint single_line (s : string) : bool :=
  match s with
  | EmptyString => true
  | String c s' => negb (is_line_terminator s) && single_line s'
  end.

(** The leftmost match: start positions are tried from left to right. *)
Fixpoint search (r : re) (s : string) : option (option string) :=
  match run r s None (λ _ cap, Some cap) with
  | Some cap => Some cap
  | None =>
      match s with
      | EmptyString => None
      | String _ s' => search r s'
      end
  end.

(** [input.match(new RegExp(src))], reduced to what [parsePath] reads:
    an exception when the source is not a pattern, [null] ([inr None])
    when nothing matches, element 1 of the match array otherwise.  The
    outer [None] marks a pattern outside the fragment, or a match in
    which group 1 took no part. *)
Definition exec (src input : string) : option (Exn + option string) :=
  match parse src with
  | POk r =>
      match search r input with
      | None => Some (inr None)
      | Some (Some g) => Some (inr (Some g))
      | Some None => None
      end
  | PSyntaxError msg =>
      Some (inl (Error ("Invalid regular expression: /" +:+ src +:+ "/: " +:+ msg)))
  | PUnsupported => None
  end.

End RegExp.

(* ===================================================================== *)
(** * The outside world: HTTP, console, disk, clock *)
(* ===================================================================== *)

Inductive Method := GET | PUT | DELETE.

(** The JSON payload of a request: none for a read, [{message, content,
    branch}] for an upload, [{message, sha, branch}] for a delete.  The
    [sha] of a delete is whatever the code read from the answer to its
    GET: when that is [undefined] ([None]) the property is left out of
    the JSON text. *)
Inductive Body :=
| NoBody
| UploadBody (message content branch : string)
| DeleteBody (message : string) (sha : option string) (branch : string).

Record Request := {
  method : Method;
  req_url : string;
  headers : list (string * string);
  body : Body
}.

(** [GitHubFileResponse]: the API's description of one object.  The
    uploader's [GitHubUploadResponse] wraps the same record in a [content]
    field; the wrapper is left implicit. *)
Record GitHubFileResponse := {
  name : string;
  path : string;
  sha : string;
  size_bytes : N;
  url : string;
  html_url : string;
  git_url : string;
  download_url : string;
  type : string
}.

(** The data of a read of the contents endpoint: one descriptor for a
    file, an array of descriptors for a directory. *)
Inductive Contents :=
| OneFile (f : GitHubFileResponse)
| Entries (l : list GitHubFileResponse).

(** One [console.log] or [console.error] call with its arguments. *)
Inductive Stream := Out | Err.

Inductive ConsoleArg :=
| Text (s : string)
| Obj (d : ErrorData).

Record ConsoleLine := { stream : Stream; args : list ConsoleArg }.

(** What a run has done so far: the requests sent and the lines printed,
    oldest first. *)
Record World := {
  requests : list Request;
  console : list ConsoleLine
}.

Inductive FsEntry :=
| File (content : list Byte.byte)
| Directory.

(** The environment of a run.
    - [regexp_match src input] is [input.match(new RegExp(src))]: it throws
      when [src] is not a pattern, and otherwise yields [null] or element 1
      of the match array.
    - [axios history r] is the outcome of sending [r] with [axios.put] or
      [axios.delete] after the requests in [history]: the response data,
      which describes one object, or the exception axios throws.
    - [axios_get history r] is the outcome of [axios.get] on the contents
      endpoint: the data is one descriptor when the path names a file and
      an array of descriptors when it names a directory, whatever type
      the caller declares for it.
    - [disk] maps the paths that exist locally to their entries.
    - [Date_now history] is the clock reading after [history]. *)
Record Env := {
  regexp_match : string → string → Exn + option string;
  axios : list Request → Request → Exn + GitHubFileResponse;
  axios_get : list Request → Request → Exn + Contents;
  disk : gmap string FsEntry;
  Date_now : list Request → Z
}.

(** ** The monad of effectful code *)

Definition M (A : Type) : Type := World → (Exn + A) * World.

Definition ret {A} (a : A) : M A := λ w, (inr a, w).

Definition throw {A} (e : Exn) : M A := λ w, (inl e, w).

Definition bind {A B} (m : M A) (f : A → M B) : M B :=
  λ w, match m w with
       | (inr a, w') => f a w'
       | (inl e, w') => (inl e, w')
       end.

(** [try { m } catch (error) { h error }] *)
Definition try_catch {A} (m : M A) (h : Exn → M A) : M A :=
  λ w, match m w with
       | (inr a, w') => (inr a, w')
       | (inl e, w') => h e w'
       end.

(** Lifts code that can throw but has no other effect. *)
Definition lift {A} (r : Exn + A) : M A := λ w, (r, w).

Notation "'let*' x := m 'in' k" := (bind m (λ x, k))
  (at level 10, x pattern, m at level 100, k at level 200).
Notation "m ;; k" := (bind m (λ _, k))
  (at level 100, k at level 200, right associativity).

Definition print (st : Stream) (a : list ConsoleArg) : M unit :=
  λ w, (inr tt, {| requests := requests w;
                   console := console w ++ [{| stream := st; args := a |}] |}).

Definition console_log (s : string) : M unit := print Out [Text s].
Definition console_error (a : list ConsoleArg) : M unit := print Err a.

(** Sends a request: it is recorded whether or not it succeeds. *)
Definition send (env : Env) (r : Request) : M GitHubFileResponse :=
  λ w, (axios env (requests w) r,
        {| requests := requests w ++ [r]; console := console w |}).

(** Sends a read of the contents endpoint. *)
Definition get (env : Env) (r : Request) : M Contents :=
  λ w, (axios_get env (requests w) r,
        {| requests := requests w ++ [r]; console := console w |}).

(** [Date.now()] *)
Definition now (env : Env) : M Z := λ w, (inr (Date_now env (requests w)), w).

(** [fs.existsSync(p)] *)
Definition existsSync (env : Env) (p : string) : bool :=
  bool_decide (is_Some (disk env !! p)).

(** [fs.readFileSync(p)] *)
Definition readFileSync (env : Env) (p : string) : Exn + list Byte.byte :=
  match disk env !! p with
  | Some (File content) => inr content
  | Some Directory => inl (Error "EISDIR: illegal operation on a directory, read")
  | None => inl (Error ("ENOENT: no such file or directory, open '" +:+ p +:+ "'"))
  end.

(** [buffer.toString('base64')]: standard alphabet, '=' padding. *)
Module Base64.

Definition alphabet : string :=
  "ABCDEFGHIJKLMNOPQRSTUVWXYZabcdefghijklmnopqrstuvwxyz0123456789+/".

Definition sextet (n : N) : ascii :=
  match String.get (N.to_nat (N.land n 63)) alphabet with
  | Some c => c
  | None => "="%char
  end.

Definition pad : ascii := "="%char.

Fixpoint encode (bytes : list Byte.byte) : string :=
  match bytes with
  | [] => ""
  | [a] =>
      let n := N.shiftl (Byte.to_N a) 16 in
      String (sextet (N.shiftr n 18)) (String (sextet (N.shiftr n 12))
        (String pad (String pad "")))
  | [a; b] =>
      let n := N.lor (N.shiftl (Byte.to_N a) 16) (N.shiftl (Byte.to_N b) 8) in
      String (sextet (N.shiftr n 18)) (String (sextet (N.shiftr n 12))
        (String (sextet (N.shiftr n 6)) (String pad "")))
  | a :: b :: c :: rest =>
      let n := N.lor (N.lor (N.shiftl (Byte.to_N a) 16) (N.shiftl (Byte.to_N b) 8))
                     (Byte.to_N c) in
      String (sextet (N.shiftr n 18)) (String (sextet (N.shiftr n 12))
        (String (sextet (N.shiftr n 6)) (String (sextet n) (encode rest))))
  end.

End Base64.

(* ===================================================================== *)
(** * Client configuration (shared by the three clients) *)
(* ===================================================================== *)

Record Config := {
  owner : string;
  repo : string;
  token : string;
  branch : string
}.

Definition apiUrl : string := "https://api.github.com".

(** [process.env.X || fallback] *)
Definition getenv (vars : gmap string string) (x fallback : string) : string :=
  JS.opt_or_else (vars !! x) fallback.

Definition validateConfig (c : Config) : Exn + unit :=
  if String.eqb (owner c) "" || String.eqb (repo c) "" || String.eqb (token c) ""
  then inl (Error "請設定環境變數: GITHUB_OWNER, GITHUB_REPO, GITHUB_TOKEN")
  else inr tt.

(** The constructor common to the three classes. *)
Definition constructor (vars : gmap string string) : Exn + Config :=
  let c := {| owner := getenv vars "GITHUB_OWNER" "";
              repo := getenv vars "GITHUB_REPO" "";
              token := getenv vars "GITHUB_TOKEN" "";
              branch := getenv vars "GITHUB_BRANCH" "main" |} in
  match validateConfig c with
  | inl e => inl e
  | inr _ => inr c
  end.

Definition auth_headers (c : Config) : list (string * string) :=
  [("Authorization", "token " +:+ token c);
   ("Accept", "application/vnd.github.v3+json")].

Definition json_headers (c : Config) : list (string * string) :=
  [("Authorization", "token " +:+ token c);
   ("Content-Type", "application/json");
   ("Accept", "application/vnd.github.v3+json")].

Definition contents_url (c : Config) (p : string) : string :=
  apiUrl +:+ "/repos/" +:+ owner c +:+ "/" +:+ repo c +:+ "/contents/" +:+ p.

(* ===================================================================== *)
(** * The lister: [formatSize] *)
(* ===================================================================== *)

Module Lister.

Definition k : N := 1024.

Definition sizes : list string := ["B"; "KB"; "MB"; "GB"; "TB"].

(** [Math.floor(Math.log(bytes) / Math.log(k))] for [bytes >= 1], as the
    integer part of the base-1024 logarithm ([k] is a power of two, hence
    the quotient of the binary logarithms).  The code computes with
    doubles: the quotient of the two rounded logarithms has this integer
    part for every byte count from 1 to 1024^5 - 4 and from 1024^5 to
    2^53, exact powers of 1024 included.  At 1024^5 - 3, 1024^5 - 2 and
    1024^5 - 1 the double [Math.log(bytes)] is already that of 1024^5 and
    the code's index is 5, one more than the value given here; the
    statements about the index leave these three counts out. *)
Definition unit_index (bytes : N) : nat :=
  N.to_nat (N.log2 bytes / N.log2 k).

(** [(num / den).toFixed(2)], the result counted in hundredths: the
    nearest multiple of 0.01, the larger one on a tie.  The quotient of a
    byte count by a power of 1024 is exact in binary floating point. *)
Definition toFixed2 (num den : N) : N := (200 * num + den) / (2 * den).

(** [parseFloat(text) + ''] for a text with two decimals, given in
    hundredths: the shortest decimal, without trailing zeros. *)
Definition show_hundredths (h : N) : string :=
  let whole := JS.show_N (h / 100) in
  let frac := (h mod 100)%N in
  if (frac =? 0)%N then whole
  else if (frac mod 10 =? 0)%N then whole +:+ "." +:+ JS.show_N (frac / 10)
  else whole +:+ "." +:+ JS.show_N (frac / 10) +:+ JS.show_N (frac mod 10).

(** The magnitude printed for a positive byte count, in hundredths. *)
Definition magnitude (bytes : N) : N :=
  toFixed2 bytes (k ^ N.of_nat (unit_index bytes)).

(** [sizes[i]] converted to a string: past the end of the table the
    element is [undefined]. *)
Definition unit_name (i : nat) : string :=
  match sizes !! i with
  | Some u => u
  | None => "undefined"
  end.

Definition formatSize (bytes : N) : string :=
  if (bytes =? 0)%N then "0 B"
  else
    let i := unit_index bytes in
    show_hundredths (magnitude bytes) +:+ " " +:+ unit_name i.

End Lister.

(* ===================================================================== *)
(** * The deleter *)
(* ===================================================================== *)

Module Deleter.

Definition rawPattern (c : Config) : string :=
  "raw\.githubusercontent\.com/" +:+ owner c +:+ "/" +:+ repo c +:+ "/"
    +:+ branch c +:+ "/(.+)".

(** The text the raw-content pattern matches literally, and the
    raw-content URL of the object at path [p]. *)
Definition raw_text (c : Config) : string :=
  "raw.githubusercontent.com/" +:+ owner c +:+ "/" +:+ repo c +:+ "/"
    +:+ branch c +:+ "/".


(** A configuration whose owner, repository and branch contain no
    character with a special meaning in a pattern. *)
Definition plain_config (c : Config) : bool :=
  RegExp.plain (owner c) && RegExp.plain (repo c) && RegExp.plain (branch c).

Definition cdnPattern (c : Config) : string :=
  "cdn\.jsdelivr\.net/gh/" +:+ owner c +:+ "/" +:+ repo c +:+ "(?:@"
    +:+ branch c +:+ ")?/(.+)".

(** The last resort of [parsePath]: what follows the branch name that
    follows the repository name, or nothing ([None]) when one of the two
    is not found.  The [+ 1] steps over the character after the branch
    name, whatever it is.  Positions count the bytes of the string where
    the code counts UTF-16 units; both find the same occurrences, and
    the step of one is the same step when the character stepped over is
    an ASCII one (after a non-ASCII character the code's result starts
    later than the one given here). *)
Definition fallback (c : Config) (input : string) : option string :=
  match JS.indexOf input (repo c) with
  | Some repoIndex =>
      let afterRepo := JS.substring input (repoIndex + String.length (repo c)) in
      match JS.indexOf afterRepo (branch c) with
      | Some branchIndex =>
          Some (JS.substring afterRepo (branchIndex + String.length (branch c) + 1))
      | None => None
      end
  | None => None
  end.

Definition parsePath (env : Env) (c : Config) (input : string) : Exn + string :=
  let cleanPath := input in
  if JS.startsWith input "http" then
    match regexp_match env (rawPattern c) input with
    | inl e => inl e
    | inr (Some capture) => inr capture
    | inr None =>
        match regexp_match env (cdnPattern c) input with
        | inl e => inl e
        | inr (Some capture) => inr capture
        | inr None =>
            match fallback c input with
            | Some guess => inr guess
            | None => inr cleanPath
            end
        end
    end
  else inr cleanPath.

Definition get_request (c : Config) (filePath : string) : Request :=
  {| method := GET;
     req_url := contents_url c filePath +:+ "?ref=" +:+ branch c;
     headers := auth_headers c;
     body := NoBody |}.

Definition delete_request (c : Config) (filePath : string) (sha : option string)
    : Request :=
  {| method := DELETE;
     req_url := contents_url c filePath;
     headers := json_headers c;
     body := DeleteBody ("Delete image: " +:+ Path.basename filePath) sha (branch c) |}.

(** [axios.isAxiosError(error) && error.response?.status === 404] *)
Definition is_not_found (error : Exn) : bool :=
  isAxiosError error
  && bool_decide (response_status (exn_response error) = Some 404%N).

(** [response.data.sha]: a descriptor has the property; an array has
    none, and reading it gives [undefined]. *)
Definition data_sha (data : Contents) : option string :=
  match data with
  | OneFile f => Some (sha f)
  | Entries _ => None
  end.

(** The declared result type is [Promise<string>], but nothing checks
    the data: the result is [undefined] when the answer is an array. *)
Definition getFileSha (env : Env) (c : Config) (filePath : string)
    : M (option string) :=
  try_catch
    (let* response := get env (get_request c filePath) in
     ret (data_sha response))
    (λ error,
       if is_not_found error
       then throw (Error ("找不到檔案: " +:+ filePath))
       else throw error).

(** The [try] block of [deleteImage]. *)
Definition attempt (env : Env) (c : Config) (inputPath : string) : M unit :=
  let* filePath := lift (parsePath env c inputPath) in
  console_log ("正在處理: " +:+ inputPath) ;;
  console_log ("解析路徑: " +:+ filePath) ;;
  let* sha := getFileSha env c filePath in
  console_log ("取得 SHA: " +:+ JS.show_opt sha) ;;
  send env (delete_request c filePath sha) ;;
  console_log "✅ 刪除成功!".

(** The [catch] block of [deleteImage]: both branches only print (the
    [throw] statements of the source are commented out). *)
Definition report (error : Exn) : M unit :=
  if isAxiosError error then
    console_error
      [Text "❌ 刪除失敗:";
       Text (JS.opt_or_else (response_data_message (exn_response error))
                            (exn_message error))]
  else console_error [Text "❌ 錯誤:"; Text (exn_message error)].

Definition deleteImage (env : Env) (c : Config) (inputPath : string) : M unit :=
  try_catch (attempt env c inputPath) report.

(** The world after one item of a batch: [deleteImage], then the
    separator line. *)
Definition after_item (env : Env) (c : Config) (w : World) (input : string) : World :=
  snd (console_log "---" (snd (deleteImage env c input w))).

Fixpoint deleteImages (env : Env) (c : Config) (inputs : list string) : M unit :=
  match inputs with
  | [] => ret tt
  | input :: rest =>
      deleteImage env c input ;;
      console_log "---" ;;
      deleteImages env c rest
  end.

End Deleter.

(* ===================================================================== *)
(** * The uploader *)
(* ===================================================================== *)

Module Uploader.

Definition fileToBase64 (env : Env) (filePath : string) : Exn + string :=
  match readFileSync env filePath with
  | inl e => inl e
  | inr fileBuffer => inr (Base64.encode fileBuffer)
  end.

(** The name built from a clock reading. *)
Definition stamped (timestamp : Z) (originalName : string) : string :=
  let ext := Path.extname originalName in
  let nameWithoutExt := Path.basename_ext originalName ext in
  nameWithoutExt +:+ "-" +:+ JS.show_Z timestamp +:+ ext.

Definition generateFileName (env : Env) (originalName : string) : M string :=
  let* timestamp := now env in
  ret (stamped timestamp originalName).

Definition put_request (c : Config) (remoteFilePath fileName content : string) : Request :=
  {| method := PUT;
     req_url := contents_url c remoteFilePath;
     headers := json_headers c;
     body := UploadBody ("Upload image: " +:+ fileName) content (branch c) |}.

(** [error.response?.data || error.message] as a console argument. *)
Definition data_or_message (r : option ErrorResponse) (m : string) : ConsoleArg :=
  match r with
  | Some {| data := Some d |} => Obj d
  | _ => Text m
  end.

(** [`${error.response?.status}`] *)
Definition show_status (r : option ErrorResponse) : string :=
  match response_status r with
  | Some n => JS.show_N n
  | None => "undefined"
  end.

Definition uploadImage (env : Env) (c : Config) (localFilePath : string)
    (remotePath customFileName : option string) : M string :=
  try_catch
    ((if existsSync env localFilePath then ret tt
      else throw (Error ("檔案不存在: " +:+ localFilePath))) ;;
     let* fileName :=
       match customFileName with
       | Some custom =>
           if String.eqb custom ""
           then generateFileName env (Path.basename localFilePath)
           else ret custom
       | None => generateFileName env (Path.basename localFilePath)
       end in
     let* base64Content := lift (fileToBase64 env localFilePath) in
     let remoteDir := JS.opt_or_else remotePath "images" in
     let remoteFilePath := remoteDir +:+ "/" +:+ fileName in
     console_log ("正在上傳圖片: " +:+ localFilePath) ;;
     console_log ("目標路徑: " +:+ remoteFilePath) ;;
     let* response := send env (put_request c remoteFilePath fileName base64Content) in
     let downloadUrl := download_url response in
     console_log "✅ 上傳成功!" ;;
     console_log ("圖片 URL: " +:+ downloadUrl) ;;
     ret downloadUrl)
    (λ error,
       if isAxiosError error then
         let r := exn_response error in
         console_error [Text "❌ 上傳失敗:"; data_or_message r (exn_message error)] ;;
         throw (Error ("GitHub API 錯誤: " +:+ show_status r +:+ " - "
                         +:+ JS.opt_or_else (response_data_message r)
                                            (exn_message error)))
       else throw error).

(** The loop of [uploadImages]; [results] is the array built so far. *)
Fixpoint uploadImages_loop (env : Env) (c : Config) (filePaths : list string)
    (remotePath : option string) (results : list string) : M (list string) :=
  match filePaths with
  | [] => ret results
  | filePath :: rest =>
      let* results' :=
        try_catch
          (let* url := uploadImage env c filePath remotePath None in
           ret (results ++ [url]))
          (λ error,
             console_error [Text ("上傳失敗 " +:+ filePath +:+ ":");
                            Text (exn_message error)] ;;
             ret (results ++ [""])) in
      uploadImages_loop env c rest remotePath results'
  end.

Definition uploadImages (env : Env) (c : Config) (filePaths : list string)
    (remotePath : option string) : M (list string) :=
  uploadImages_loop env c filePaths remotePath [].

(** What the [catch] block of the loop prints for a failed upload. *)
Definition log_failure (filePath : string) (error : Exn) (w : World) : World :=
  snd (console_error [Text ("上傳失敗 " +:+ filePath +:+ ":");
                      Text (exn_message error)] w).

(** [batch w paths results w']: running one [uploadImage] per path, in
    order and each from the world its predecessor left, takes [w] to
    [w'], and [results] lists, position by position, the URL of a
    successful upload and the empty string for a failed one. *)
Inductive batch (env : Env) (c : Config) (remotePath : option string)
  : World → list string → list string → World → Prop :=
| batch_nil w : batch env c remotePath w [] [] w
| batch_uploaded w filePath rest url w1 results w' :
    uploadImage env c filePath remotePath None w = (inr url, w1) →
    batch env c remotePath w1 rest results w' →
    batch env c remotePath w (filePath :: rest) (url :: results) w'
| batch_failed w filePath rest error w1 results w' :
    uploadImage env c filePath remotePath None w = (inl error, w1) →
    batch env c remotePath (log_failure filePath error w1) rest results w' →
    batch env c remotePath w (filePath :: rest) ("" :: results) w'.

End Uploader.

(* ===================================================================== *)
(** * A concrete environment for scenarios *)
(* ===================================================================== *)

(** A small stand-in for the remote service, used to run the clients on
    concrete inputs: a store of objects keyed by contents URL, where a GET
    of a missing object is answered 404, a PUT creates an object (422 when
    it exists, since the uploader sends no sha) and a DELETE removes it
    when the supplied sha is the current one (409 otherwise). *)
Module Sim.

Definition regexp (src input : string) : Exn + option string :=
  match RegExp.exec src input with
  | Some outcome => outcome
  | None => inl (Error "regular expression outside the modelled fragment")
  end.

Definition failure (code : N) (msg : string) : Exn :=
  AxiosError (Some {| status := code; data := Some {| data_message := Some msg |} |})
             ("Request failed with status code " +:+ JS.show_N code).

Fixpoint strip_query (u : string) : string :=
  match u with
  | EmptyString => EmptyString
  | String c u' => if Ascii.eqb c "?" then EmptyString else String c (strip_query u')
  end.

Definition object_at (u : string) (version : nat) : GitHubFileResponse :=
  {| name := Path.basename u;
     path := u;
     sha := "sha" +:+ JS.show_N (N.of_nat version);
     size_bytes := 0;
     url := u;
     html_url := u;
     git_url := u;
     download_url := "https://raw.githubusercontent.com/download/" +:+ Path.basename u;
     type := "file" |}.

Definition apply (store : gmap string GitHubFileResponse) (seen : nat) (r : Request)
    : gmap string GitHubFileResponse :=
  let u := strip_query (req_url r) in
  match method r, body r, store !! u with
  | PUT, UploadBody _ _ _, None => <[u := object_at u seen]> store
  | DELETE, DeleteBody _ (Some s) _, Some f =>
      if String.eqb s (sha f) then delete u store else store
  | _, _, _ => store
  end.

Fixpoint replay (store : gmap string GitHubFileResponse) (seen : nat)
    (history : list Request) : gmap string GitHubFileResponse :=
  match history with
  | [] => store
  | r :: rest => replay (apply store seen r) (S seen) rest
  end.

Definition respond (initial : gmap string GitHubFileResponse)
    (history : list Request) (r : Request) : Exn + GitHubFileResponse :=
  let store := replay initial 0 history in
  let u := strip_query (req_url r) in
  match method r, store !! u with
  | GET, Some f => inr f
  | GET, None => inl (failure 404 "Not Found")
  | PUT, None => inr (object_at u (List.length history))
  | PUT, Some _ => inl (failure 422 "Invalid request. sha wasn't supplied.")
  | DELETE, Some f =>
      match body r with
      | DeleteBody _ (Some s) _ =>
          if String.eqb s (sha f) then inr f
          else inl (failure 409 "sha does not match")
      | _ => inl (failure 422 "Invalid request. sha wasn't supplied.")
      end
  | DELETE, None =>
      match body r with
      | DeleteBody _ (Some _) _ => inl (failure 404 "Not Found")
      | _ => inl (failure 422 "Invalid request. sha wasn't supplied.")
      end
  end.

(** The descriptors of the objects stored below the directory [u]. *)
Definition listing (store : gmap string GitHubFileResponse) (u : string)
    : list GitHubFileResponse :=
  map snd (List.filter (λ kv, String.prefix (u +:+ "/") (fst kv)) (map_to_list store)).

(** The answer to a read: the descriptor of the object at the URL, the
    listing of the objects below it, or 404 when there is neither. *)
Definition read (initial : gmap string GitHubFileResponse)
    (history : list Request) (r : Request) : Exn + Contents :=
  let store := replay initial 0 history in
  let u := strip_query (req_url r) in
  match store !! u with
  | Some f => inr (OneFile f)
  | None =>
      match listing store u with
      | [] => inl (failure 404 "Not Found")
      | l => inr (Entries l)
      end
  end.

Definition env (initial : gmap string GitHubFileResponse)
    (files : gmap string FsEntry) : Env :=
  {| regexp_match := regexp;
     axios := respond initial;
     axios_get := read initial;
     disk := files;
     Date_now := λ history, (1700000000000 + Z.of_nat (List.length history))%Z |}.

Definition acme : Config :=
  {| owner := "acme"; repo := "pics"; token := "secret"; branch := "main" |}.

Definition old_png_url : string :=
  contents_url acme "images/old.png".

(** A remote repository holding the single object [images/old.png]. *)
Definition remote : gmap string GitHubFileResponse :=
  {[ old_png_url := object_at old_png_url 0 ]}.

(** A local disk holding the file [./photo.png] and the directory [.]. *)
Definition local : gmap string FsEntry :=
  {[ "./photo.png" := File [Byte.x4d; Byte.x61; Byte.x6e]; "." := Directory ]}.

Definition start : World := {| requests := []; console := [] |}.

End Sim.

(* ===================================================================== *)
(** * Statements taken from the specification *)
(* ===================================================================== *)

(** These definitions transcribe sentences of the specification whose
    literal reading the code does not satisfy; they are compared with the
    code in the theorems below. *)
Module Stated.

(** "Size formatting returns "0 B" iff b = 0, and otherwise selects the
    unit [from B, KB, MB, GB, TB] such that the scaled magnitude [shown
    with up to 2 decimal places] is in [1, 1024)". *)
Definition size_format (b : N) : Prop :=
  (Lister.formatSize b = "0 B" ↔ b = 0%N) ∧
  ((0 < b)%N →
   ∃ u, u ∈ Lister.sizes ∧
        Lister.formatSize b
          = Lister.show_hundredths (Lister.magnitude b) +:+ " " +:+ u ∧
        (100 ≤ Lister.magnitude b < 102400)%N).

(** A URL, as opposed to a bare repository-relative path: the input
    starts with a scheme, [http://] or [https://]. *)
Definition is_url (x : string) : bool :=
  JS.startsWith x "http://" || JS.startsWith x "https://".

(** Applying [parsePath] to its own result. *)
Definition parsePath_twice (env : Env) (c : Config) (x : string) : Exn + string :=
  match Deleter.parsePath env c x with
  | inr p => Deleter.parsePath env c p
  | inl e => inl e
  end.

(** "parsePath is idempotent on inputs that are not URLs". *)
Definition parsePath_idempotent (env : Env) (c : Config) : Prop :=
  ∀ x, is_url x = false →
       parsePath_twice env c x = Deleter.parsePath env c x.


End Stated.

(* ===================================================================== *)
(** * The lister: [listImages] *)
(* ===================================================================== *)

(** How a run of a command ends: by reaching the end of [main], or by a
    call of [process.exit].  Every [process.exit] of the three scripts is
    the last statement of its block, so an exit is modelled as the value
    the computation returns. *)
Inductive Ended :=
| Finished
| Exited (code : N).

(** [l.forEach(f)] *)
Fixpoint forEach {A} (l : list A) (f : A → M unit) : M unit :=
  match l with
  | [] => ret tt
  | x :: rest => f x ;; forEach rest f
  end.

Module Listing.

(** The remote service as the lister sees it: the outcome of sending a
    request after a history of requests. *)
Definition Api : Type := list Request → Request → Exn + Contents.

Definition send (api : Api) (r : Request) : M Contents :=
  λ w, (api (requests w) r,
        {| requests := requests w ++ [r]; console := console w |}).

Definition newline : string := String "010"%char "".

(** [dirPath.startsWith('/') ? dirPath.slice(1) : dirPath] *)
Definition clean (dirPath : string) : string :=
  if JS.startsWith dirPath "/" then JS.substring dirPath 1 else dirPath.

Definition list_request (c : Config) (cleanPath : string) : Request :=
  {| method := GET;
     req_url := contents_url c cleanPath +:+ "?ref=" +:+ branch c;
     headers := auth_headers c;
     body := NoBody |}.

Definition is_file (item : GitHubFileResponse) : bool := String.eqb (type item) "file".
Definition is_dir (item : GitHubFileResponse) : bool := String.eqb (type item) "dir".

Definition show_length {A} (l : list A) : string :=
  JS.show_N (N.of_nat (List.length l)).

Definition print_dir (dir : GitHubFileResponse) : M unit :=
  console_log ("  - " +:+ name dir +:+ "/").

Definition print_file (file : GitHubFileResponse) : M unit :=
  console_log ("  - " +:+ name file +:+ " (" +:+ Lister.formatSize (size_bytes file) +:+ ")") ;;
  console_log ("    " +:+ download_url file).

(** The [try] block of [listImages]. *)
Definition attempt (api : Api) (c : Config) (dirPath : string) : M Ended :=
  let cleanPath := clean dirPath in
  console_log ("正在查詢目錄: " +:+ JS.or_else cleanPath "(root)" +:+ "...") ;;
  let* data := send api (list_request c cleanPath) in
  match data with
  | OneFile data =>
      console_log (newline +:+ "這是一個檔案:") ;;
      console_log ("名稱: " +:+ name data) ;;
      console_log ("大小: " +:+ Lister.formatSize (size_bytes data)) ;;
      console_log ("URL: " +:+ download_url data) ;;
      ret Finished
  | Entries data =>
      let files := List.filter is_file data in
      let dirs := List.filter is_dir data in
      console_log (newline +:+ "找到 " +:+ show_length files +:+ " 個檔案, "
                     +:+ show_length dirs +:+ " 個資料夾:" +:+ newline) ;;
      (match dirs with
       | [] => ret tt
       | _ :: _ =>
           console_log "📁 資料夾:" ;;
           forEach dirs print_dir ;;
           console_log ""
       end) ;;
      (match files with
       | [] => ret tt
       | _ :: _ =>
           console_log "📄 檔案:" ;;
           forEach files print_file
       end) ;;
      (match files, dirs with
       | [], [] => console_log "(空目錄)"
       | _, _ => ret tt
       end) ;;
      ret Finished
  end.

(** The [catch] block of [listImages]: one line on the error stream, then
    [process.exit(1)]. *)
Definition fail (dirPath : string) (error : Exn) : M Ended :=
  (if isAxiosError error then
     if bool_decide (response_status (exn_response error) = Some 404%N)
     then console_error [Text ("❌ 找不到路徑: " +:+ dirPath)]
     else console_error
            [Text "❌ API 錯誤:";
             Text (JS.opt_or_else (response_data_message (exn_response error))
                                  (exn_message error))]
   else console_error [Text "❌ 錯誤:"; Text (exn_message error)]) ;;
  ret (Exited 1).

Definition listImages (api : Api) (c : Config) (dirPath : string) : M Ended :=
  try_catch (attempt api c dirPath) (fail dirPath).

End Listing.

(* ===================================================================== *)
(** * The three command lines *)
(* ===================================================================== *)

(** Each [main] receives the arguments after the script name
    ([process.argv.slice(2)]) and the environment variables the
    constructor reads. *)

(** The [catch] block common to the three [main] functions. *)
Definition main_failed (error : Exn) : M Ended :=
  console_error [Text "錯誤:"; Text (exn_message error)] ;;
  ret (Exited 1).

Module DeleterCLI.

Definition usage : list string :=
  ["使用方式:";
   "  npm run delete <path-or-url> [path-or-url-2] ...";
   "";
   "範例:";
   "  npm run delete image/blog/test.png";
   "  npm run delete https://raw.githubusercontent.com/user/repo/main/image/blog/test.png"].

Definition main (env : Env) (vars : gmap string string) (args : list string) : M Ended :=
  match args with
  | [] => forEach usage console_log ;; ret (Exited 1)
  | _ :: _ =>
      try_catch
        (let* deleter := lift (constructor vars) in
         Deleter.deleteImages env deleter args ;;
         ret Finished)
        main_failed
  end.

End DeleterCLI.

Module ListerCLI.

Definition main (api : Listing.Api) (vars : gmap string string) (args : list string)
    : M Ended :=
  let targetPath := JS.opt_or_else (args !! 0%nat) "" in
  try_catch
    (let* lister := lift (constructor vars) in
     Listing.listImages api lister targetPath)
    main_failed.

End ListerCLI.

Module UploaderCLI.

Definition usage : list string :=
  ["使用方式:";
   "  單一檔案: npm run upload <file-path> [remote-path] [custom-filename]";
   "  多個檔案: npm run upload <file1> <file2> <file3> ... [remote-path]";
   "";
   "範例:";
   "  npm run upload ./my-image.png";
   "  npm run upload ./my-image.png images/screenshots";
   "  npm run upload ./my-image.png images custom-name.png";
   "  npm run upload ./img1.png ./img2.png ./img3.png"].

(** [urls.forEach((url, index) => ...)], from position [index] on. *)
Fixpoint print_results (urls : list string) (index : nat) : M unit :=
  match urls with
  | [] => ret tt
  | url :: rest =>
      console_log (JS.show_N (N.of_nat (index + 1)) +:+ ". "
                     +:+ (if String.eqb url "" then "失敗" else url)) ;;
      print_results rest (S index)
  end.

Definition main (env : Env) (vars : gmap string string) (args : list string) : M Ended :=
  match args with
  | [] => forEach usage console_log ;; ret (Exited 1)
  | _ :: _ =>
      try_catch
        (let* uploader := lift (constructor vars) in
         let filePaths := List.filter (existsSync env) args in
         let nonFilePaths := List.filter (λ arg, negb (existsSync env arg)) args in
         match filePaths with
         | [] => throw (Error "沒有找到有效的檔案")
         | [filePath] =>
             let remotePath := nonFilePaths !! 0%nat in
             let customFileName := nonFilePaths !! 1%nat in
             Uploader.uploadImage env uploader filePath remotePath customFileName ;;
             ret Finished
         | _ :: _ :: _ =>
             let remotePath := nonFilePaths !! 0%nat in
             console_log ("批次上傳 " +:+ JS.show_N (N.of_nat (List.length filePaths))
                            +:+ " 個檔案...") ;;
             let* urls := Uploader.uploadImages env uploader filePaths remotePath in
             console_log (Listing.newline +:+ "上傳結果:") ;;
             print_results urls 0 ;;
             ret Finished
         end)
        main_failed
  end.

End UploaderCLI.

(** ** A concrete remote directory for scenarios *)

Module SimListing.

Definition entry (n t : string) (s : N) : GitHubFileResponse :=
  {| name := n; path := "images/" +:+ n; sha := "sha-" +:+ n; size_bytes := s;
     url := contents_url Sim.acme ("images/" +:+ n);
     html_url := "https://github.com/acme/pics/blob/main/images/" +:+ n;
     git_url := "https://api.github.com/repos/acme/pics/git/blobs/sha-" +:+ n;
     download_url := "https://raw.githubusercontent.com/acme/pics/main/images/" +:+ n;
     type := t |}.

(** A repository whose directory [images] holds two files and a
    directory, and whose directory [empty] holds nothing. *)
Definition store : gmap string Contents :=
  {[ contents_url Sim.acme "images" :=
       Entries [entry "a.png" "file" 1536; entry "old" "dir" 0;
                        entry "b.jpg" "file" 1048575];
     contents_url Sim.acme "empty" := Entries [];
     contents_url Sim.acme "images/a.png" := OneFile (entry "a.png" "file" 1536) ]}.

Definition api : Listing.Api :=
  λ _ r, match store !! Sim.strip_query (req_url r) with
         | Some data => inr data
         | None => inl (Sim.failure 404 "Not Found")
         end.

Definition vars : gmap string string :=
  {[ "GITHUB_OWNER" := "acme"; "GITHUB_REPO" := "pics"; "GITHUB_TOKEN" := "secret" ]}.

End SimListing.

(** ** Shapes used to state properties of the clients *)

(** The CDN URL of the object at path [p], with the branch pinned
    ([@branch]) or not. *)
Definition cdn_text (c : Config) : string :=
  "cdn.jsdelivr.net/gh/" +:+ owner c +:+ "/" +:+ repo c.

Definition cdn_url (c : Config) (pinned : bool) (p : string) : string :=
  "https://" +:+ cdn_text c +:+ (if pinned then "@" +:+ branch c else "")
    +:+ "/" +:+ p.

Definition raw_host : string := "raw.githubusercontent.com".


(** The error [uploadImage] throws when the API refuses the upload:
    status and message are those of the response when there is one. *)
Definition api_error (r : option ErrorResponse) (m : string) : Exn :=
  Error ("GitHub API 錯誤: " +:+ Uploader.show_status r +:+ " - "
           +:+ JS.opt_or_else (response_data_message r) m).

(** A world with further requests and console lines. *)
Definition extend (w : World) (sent : list Request) (printed : list ConsoleLine)
    : World :=
  {| requests := requests w ++ sent; console := console w ++ printed |}.

(** A [console.log] line with one text. *)
Definition out (s : string) : ConsoleLine := {| stream := Out; args := [Text s] |}.

(** The error [deleteImage] reports when the GET fails with [e]. *)
Definition get_failure (p : string) (e : Exn) : Exn :=
  if Deleter.is_not_found e then Error ("找不到檔案: " +:+ p) else e.

(** Every DELETE among the requests [new], sent after [history], comes
    right after a GET of the same path that succeeded, and carries what
    the [sha] property of that answer held: the sha of the descriptor
    when the answer is one, nothing when the answer is an array. *)
Definition read_before_delete (env : Env) (c : Config)
    (history new : list Request) : Prop :=
  ∀ i d,
    new !! i = Some d → method d = DELETE →
    ∃ j p data,
      i = S j ∧
      new !! j = Some (Deleter.get_request c p) ∧
      axios_get env (history ++ take j new) (Deleter.get_request c p) = inr data ∧
      d = Deleter.delete_request c p (Deleter.data_sha data).

(** The line [deleteImage] prints after a successful deletion. *)
Definition success_line : ConsoleLine := out "✅ 刪除成功!".

(** The three steps of a deletion all succeed: the path resolves, the GET
    is answered, the DELETE sent with the sha read from the answer is
    accepted. *)
Definition deleted (env : Env) (c : Config) (input : string) (w : World) : Prop :=
  ∃ p data f',
    Deleter.parsePath env c input = inr p ∧
    axios_get env (requests w) (Deleter.get_request c p) = inr data ∧
    axios env (requests w ++ [Deleter.get_request c p])
      (Deleter.delete_request c p (Deleter.data_sha data)) = inr f'.

(** The remote file name [uploadImage] settles on:
    [customFileName || generateFileName(path.basename(localFilePath))]. *)
Definition upload_name (timestamp : Z) (localFilePath : string)
    (customFileName : option string) : string :=
  JS.opt_or_else customFileName
    (Uploader.stamped timestamp (Path.basename localFilePath)).

(** [remotePath || 'images'] joined with the file name. *)
Definition upload_path (remotePath : option string) (fileName : string) : string :=
  JS.opt_or_else remotePath "images" +:+ "/" +:+ fileName.

(** The request [uploadImage] sends for a file of content [content], in
    world [w]. *)
Definition upload_request (env : Env) (c : Config) (localFilePath : string)
    (remotePath customFileName : option string) (content : list Byte.byte)
    (w : World) : Request :=
  let fileName :=
    upload_name (Date_now env (requests w)) localFilePath customFileName in
  Uploader.put_request c (upload_path remotePath fileName) fileName
    (Base64.encode content).

(** The lines [listImages] prints for a directory and for a file of a
    listing, and the report of a whole listing: the counts, the
    directories, the files, or the notice that there is nothing. *)
Definition dir_line (dir : GitHubFileResponse) : ConsoleLine :=
  out ("  - " +:+ name dir +:+ "/").

Definition file_lines (file : GitHubFileResponse) : list ConsoleLine :=
  [out ("  - " +:+ name file +:+ " (" +:+ Lister.formatSize (size_bytes file) +:+ ")");
   out ("    " +:+ download_url file)].

Definition query_line (dirPath : string) : ConsoleLine :=
  out ("正在查詢目錄: " +:+ JS.or_else (Listing.clean dirPath) "(root)" +:+ "...").

Definition count_line (files dirs : list GitHubFileResponse) : ConsoleLine :=
  out (Listing.newline +:+ "找到 " +:+ Listing.show_length files +:+ " 個檔案, "
         +:+ Listing.show_length dirs +:+ " 個資料夾:" +:+ Listing.newline).

Definition empty_line : ConsoleLine := out "(空目錄)".

Definition listing_report (data : list GitHubFileResponse) : list ConsoleLine :=
  let files := List.filter Listing.is_file data in
  let dirs := List.filter Listing.is_dir data in
  [count_line files dirs]
    ++ match dirs with
       | [] => []
       | _ :: _ => out "📁 資料夾:" :: map dir_line dirs ++ [out ""]
       end
    ++ match files with
       | [] => []
       | _ :: _ => out "📄 檔案:" :: flat_map file_lines files
       end
    ++ match files, dirs with
       | [], [] => [empty_line]
       | _, _ => []
       end.

(* ===================================================================== *)
(** * Theorems *)
(* ===================================================================== *)

(** ** Strings and numbers *)

Lemma append_nil_l (s : string) : "" +:+ s = s.
Proof. reflexivity. Qed.

Lemma append_cons (a : ascii) (s t : string) :
  String a s +:+ t = String a (s +:+ t).
Proof. reflexivity. Qed.

Lemma list_ascii_of_append (a b : string) :
  list_ascii_of_string (a +:+ b) = list_ascii_of_string a ++ list_ascii_of_string b.
Proof.
  induction a as [|x a IH]; [reflexivity|].
  rewrite append_cons. simpl. now rewrite IH.
Qed.

Lemma length_list_ascii (s : string) :
  List.length (list_ascii_of_string s) = String.length s.
Proof. induction s as [|a s IH]; simpl; [reflexivity | now rewrite IH]. Qed.

Lemma length_append (a b : string) :
  String.length (a +:+ b) = (String.length a + String.length b)%nat.
Proof. induction a as [|x a IH]; simpl; [reflexivity | now rewrite IH]. Qed.

Lemma append_inj_r (a b s : string) : a +:+ s = b +:+ s → a = b.
Proof.
  revert b; induction a as [|x a IH]; intros [|y b] H; simpl in *.
  - reflexivity.
  - apply (f_equal String.length) in H. rewrite !length_append in H. simpl in H. lia.
  - apply (f_equal String.length) in H. rewrite !length_append in H. simpl in H. lia.
  - injection H as -> H. f_equal. now apply IH.
Qed.

Lemma show_N_inj (m n : N) : JS.show_N m = JS.show_N n → m = n.
Proof.
  unfold JS.show_N. intros H.
  apply DecimalN.Unsigned.to_uint_inj.
  pose proof (NilEmpty.usu (N.to_uint m)) as Hm.
  pose proof (NilEmpty.usu (N.to_uint n)) as Hn.
  rewrite H in Hm. congruence.
Qed.

Lemma show_N_nonempty (n : N) : (1 ≤ String.length (JS.show_N n))%nat.
Proof.
  unfold JS.show_N. destruct n as [|p]; simpl; [lia|].
  pose proof (DecimalPos.Unsigned.to_uint_nonnil p) as H.
  destruct (Pos.to_uint p); simpl; try lia. congruence.
Qed.

(** ** The lister *)

Section FormatSize.

Import Lister.

Lemma k_pow (i : N) : (k ^ i = 2 ^ (10 * i))%N.
Proof. unfold k. rewrite N.pow_mul_r. reflexivity. Qed.

(** [unit_index] is the integer part of the base-1024 logarithm. *)
Lemma unit_index_spec (b : N) :
  (0 < b)%N →
  (k ^ N.of_nat (unit_index b) ≤ b < k ^ (N.of_nat (unit_index b) + 1))%N.
Proof.
  intros Hb. unfold unit_index. rewrite N2Nat.id.
  change (N.log2 k) with 10%N. rewrite !k_pow.
  destruct (N.log2_spec b Hb) as [Hlo Hhi].
  pose proof (N.Div0.mul_div_le (N.log2 b) 10) as Hq.
  assert (N.log2 b < 10 * N.succ (N.log2 b / 10))%N as Hr
    by (apply N.mul_succ_div_gt; lia).
  split.
  - etransitivity; [|exact Hlo]. apply N.pow_le_mono_r; lia.
  - eapply N.lt_le_trans; [exact Hhi|]. apply N.pow_le_mono_r; lia.
Qed.

Lemma unit_index_lt (b : N) (n : nat) :
  (0 < b)%N → (unit_index b < n)%nat ↔ (b < k ^ N.of_nat n)%N.
Proof.
  intros Hb. destruct (unit_index_spec b Hb) as [Hlo Hhi]. split; intros H.
  - eapply N.lt_le_trans; [exact Hhi|].
    apply N.pow_le_mono_r; [discriminate | lia].
  - destruct (decide (unit_index b < n)%nat) as [|Hge]; [assumption|].
    assert (k ^ N.of_nat n ≤ k ^ N.of_nat (unit_index b))%N
      by (apply N.pow_le_mono_r; [discriminate | lia]).
    lia.
Qed.

Lemma k_pow_pos (i : N) : (0 < k ^ i)%N.
Proof. apply N.neq_0_lt_0, N.pow_nonzero. discriminate. Qed.

(** The printed magnitude lies between 1.00 and 1024.00 inclusive. *)
Lemma magnitude_bounds (b : N) :
  (0 < b)%N → (100 ≤ magnitude b ≤ 102400)%N.
Proof.
  intros Hb. unfold magnitude, toFixed2.
  destruct (unit_index_spec b Hb) as [Hlo Hhi].
  rewrite N.pow_add_r, N.pow_1_r in Hhi. change k with 1024%N in Hhi at 2.
  pose proof (k_pow_pos (N.of_nat (unit_index b))) as Hd.
  set (d := (k ^ N.of_nat (unit_index b))%N) in *.
  split.
  - apply N.div_le_lower_bound; lia.
  - apply N.lt_succ_r, N.Div0.div_lt_upper_bound. lia.
Qed.

Lemma show_hundredths_nonempty (h : N) :
  (1 ≤ String.length (show_hundredths h))%nat.
Proof.
  unfold show_hundredths. pose proof (show_N_nonempty (h / 100)).
  repeat case_match; rewrite ?length_append; lia.
Qed.

Lemma magnitude_bytes (b : N) :
  (0 < b)%N → unit_index b = 0%nat → show_hundredths (magnitude b) = JS.show_N b.
Proof.
  intros Hb Hi. unfold magnitude, toFixed2. rewrite Hi. simpl N.of_nat.
  rewrite N.pow_0_r.
  assert ((200 * b + 1) / (2 * 1) = 100 * b)%N as ->.
  { symmetry. apply N.div_unique with (r := 1%N); lia. }
  unfold show_hundredths.
  rewrite (N.mul_comm 100 b), N.Div0.mod_mul, N.div_mul by lia. reflexivity.
Qed.

Lemma unit_name_long (i : nat) :
  i ≠ 0%nat → (2 ≤ String.length (unit_name i))%nat.
Proof.
  intros Hi. unfold unit_name, sizes.
  do 5 (destruct i as [|i]; [simpl; try lia; congruence|]). simpl. lia.
Qed.

Lemma formatSize_zero_iff (b : N) : formatSize b = "0 B" ↔ b = 0%N.
Proof.
  split; [|intros ->; reflexivity].
  unfold formatSize. destruct (N.eqb_spec b 0) as [|Hne]; [trivial|].
  intros H. exfalso.
  destruct (decide (unit_index b = 0%nat)) as [Hi|Hi].
  - rewrite magnitude_bytes, Hi in H by lia.
    change ("0 B") with ("0" +:+ " B") in H.
    change (" " +:+ unit_name 0) with " B" in H.
    apply append_inj_r in H. apply (show_N_inj b 0) in H. contradiction.
  - apply (f_equal String.length) in H. rewrite !length_append in H.
    pose proof (show_hundredths_nonempty (magnitude b)).
    pose proof (unit_name_long _ Hi). simpl in H. lia.
Qed.

End FormatSize.

Section FormatSizeClaims.

Import Lister.

(** C1 (as amended).  [formatSize b] is "0 B" exactly when [b = 0].  For
    every [0 < b <= 1024^5 - 4] the unit is the entry of the table B, KB,
    MB, GB, TB at the integer part [i] of the base-1024 logarithm of [b],
    so that the exact scaled value [b / 1024^i] lies in [1, 1024); the
    text is the magnitude rounded to two decimals, a space and the unit;
    and the printed magnitude lies between 1 and 1024 inclusive (1024
    itself is reached by rounding).  The three counts 1024^5 - 3 to
    1024^5 - 1, where the logarithm in doubles already gives index 5,
    are left out. *)
Theorem formatSize_unit_and_magnitude (b : N) :
  (formatSize b = "0 B" ↔ b = 0%N) ∧
  ((0 < b ≤ k ^ 5 - 4)%N →
   ∃ u, sizes !! unit_index b = Some u ∧
        formatSize b = show_hundredths (magnitude b) +:+ " " +:+ u ∧
        (k ^ N.of_nat (unit_index b) ≤ b < k ^ (N.of_nat (unit_index b) + 1))%N ∧
        (100 ≤ magnitude b ≤ 102400)%N).
Proof.
  split; [apply formatSize_zero_iff|]. intros [Hpos Hlt].
  assert (unit_index b < 5)%nat as Hi.
  { apply unit_index_lt; [assumption|].
    change (k ^ N.of_nat 5)%N with (k ^ 5)%N.
    change (k ^ 5)%N with 1125899906842624%N in *. lia. }
  destruct (lookup_lt_is_Some_2 sizes (unit_index b) Hi) as [u Hu].
  exists u. repeat split.
  - exact Hu.
  - unfold formatSize, unit_name. rewrite Hu.
    destruct (N.eqb_spec b 0); [lia | reflexivity].
  - apply unit_index_spec, Hpos.
  - apply unit_index_spec, Hpos.
  - apply magnitude_bounds, Hpos.
  - apply magnitude_bounds, Hpos.
Qed.

Lemma formatSize_unit_and_magnitude_witness :
  (0 < 1536 ≤ k ^ 5 - 4)%N ∧
  ∃ u, sizes !! unit_index 1536 = Some u ∧
       formatSize 1536 = show_hundredths (magnitude 1536) +:+ " " +:+ u ∧
       (k ^ N.of_nat (unit_index 1536) ≤ 1536
          < k ^ (N.of_nat (unit_index 1536) + 1))%N ∧
       (100 ≤ magnitude 1536 ≤ 102400)%N.
Proof.
  split; [vm_compute; split; [reflexivity | discriminate]|].
  apply (proj2 (formatSize_unit_and_magnitude 1536)).
  vm_compute; split; [reflexivity | discriminate].
Defined.

(** One byte short of a mebibyte is printed as 1024 KB. *)
Example formatSize_1048575 :
  unit_index 1048575 = 1%nat ∧ magnitude 1048575 = 102400%N ∧
  formatSize 1048575 = "1024 KB".
Proof. vm_compute. repeat split. Qed.

(** C1 as the specification states it fails at 1048575 bytes: the unit is
    KB and the magnitude printed is 1024, outside [1, 1024). *)
Lemma formatSize_prints_1024 : ¬ Stated.size_format 1048575.
Proof.
  intros [_ H]. destruct (H ltac:(reflexivity)) as (u & _ & _ & _ & Hm).
  vm_compute in Hm. discriminate Hm.
Qed.



End FormatSizeClaims.

(** ** The deleter: path resolution *)

Section ParsePath.

Import Deleter.

Lemma parsePath_not_http (env : Env) (c : Config) (x : string) :
  JS.startsWith x "http" = false → parsePath env c x = inr x.
Proof. intros H. unfold parsePath. rewrite H. reflexivity. Qed.

(** A result that does not begin with "http" is a fixed point. *)
Lemma parsePath_twice_stable (env : Env) (c : Config) (x p : string) :
  parsePath env c x = inr p → JS.startsWith p "http" = false →
  Stated.parsePath_twice env c x = parsePath env c x.
Proof.
  intros Hx Hp. unfold Stated.parsePath_twice. rewrite Hx.
  apply parsePath_not_http, Hp.
Qed.

(** C3 (as amended).  On every input that does not begin with "http",
    [parsePath] is the identity, and therefore idempotent. *)
Theorem parsePath_idempotent_off_http (env : Env) (c : Config) (x : string) :
  JS.startsWith x "http" = false →
  parsePath env c x = inr x ∧
  Stated.parsePath_twice env c x = parsePath env c x.
Proof.
  intros H. pose proof (parsePath_not_http env c x H) as Hx.
  split; [exact Hx|]. exact (parsePath_twice_stable env c x x Hx H).
Qed.

Lemma parsePath_idempotent_off_http_witness :
  parsePath (Sim.env ∅ ∅) Sim.acme "images/old.png" = inr "images/old.png" ∧
  Stated.parsePath_twice (Sim.env ∅ ∅) Sim.acme "images/old.png"
    = parsePath (Sim.env ∅ ∅) Sim.acme "images/old.png".
Proof.
  apply (parsePath_idempotent_off_http (Sim.env ∅ ∅) Sim.acme "images/old.png").
  reflexivity.
Defined.

(** A bare relative path under a directory [http-x] is rewritten, and the
    result is rewritten again. *)
Example parsePath_http_directory :
  Stated.is_url "http-x/pics/main/http-y/pics/main/z.png" = false ∧
  parsePath (Sim.env ∅ ∅) Sim.acme "http-x/pics/main/http-y/pics/main/z.png"
    = inr "http-y/pics/main/z.png" ∧
  parsePath (Sim.env ∅ ∅) Sim.acme "http-y/pics/main/z.png" = inr "z.png".
Proof. vm_compute. repeat split. Qed.

(** C3 as the specification states it fails under owner acme, repository
    pics, branch main: [http-x/pics/main/http-y/pics/main/z.png] is a bare
    relative path, not a URL, and [parsePath] is not idempotent on it. *)
Lemma parsePath_not_idempotent_on_bare_paths :
  ¬ Stated.parsePath_idempotent (Sim.env ∅ ∅) Sim.acme.
Proof.
  intros H.
  specialize (H "http-x/pics/main/http-y/pics/main/z.png" eq_refl).
  vm_compute in H. discriminate H.
Qed.

(** C10.  Whether an input is treated as a URL depends only on whether
    it begins with "http".  An input that does not is returned
    unchanged.  An input that does goes through the raw-content pattern,
    then the CDN pattern, then the substring fallback, and is returned
    unchanged only when all three find nothing; this happens to a bare
    relative path too, and may rewrite it: under owner acme, repository
    pics, branch main, [http-assets/pics/main/logo.png] becomes
    [logo.png]. *)
Theorem parsePath_url_test_is_http_prefix :
  (∀ env c x, JS.startsWith x "http" = false → parsePath env c x = inr x) ∧
  (∀ env c x, JS.startsWith x "http" = true →
     parsePath env c x =
       match regexp_match env (rawPattern c) x with
       | inl e => inl e
       | inr (Some p) => inr p
       | inr None =>
           match regexp_match env (cdnPattern c) x with
           | inl e => inl e
           | inr (Some p) => inr p
           | inr None => inr (default x (fallback c x))
           end
       end) ∧
  (Stated.is_url "http-assets/pics/main/logo.png" = false ∧
   JS.startsWith "http-assets/pics/main/logo.png" "http" = true ∧
   parsePath (Sim.env ∅ ∅) Sim.acme "http-assets/pics/main/logo.png"
     = inr "logo.png").
Proof.
  split; [exact parsePath_not_http|]. split.
  - intros env c x H. unfold parsePath. rewrite H.
    destruct (regexp_match env (rawPattern c) x) as [|[|]]; try reflexivity.
    destruct (regexp_match env (cdnPattern c) x) as [|[|]]; try reflexivity.
    destruct (fallback c x); reflexivity.
  - split; [reflexivity|]. split; [reflexivity|]. vm_compute. reflexivity.
Qed.

Lemma parsePath_url_test_is_http_prefix_witness :
  parsePath (Sim.env ∅ ∅) Sim.acme "images/old.png" = inr "images/old.png" ∧
  parsePath (Sim.env ∅ ∅) Sim.acme "https://cdn.jsdelivr.net/gh/acme/pics@main/a/b.png"
    = inr "a/b.png".
Proof.
  destruct parsePath_url_test_is_http_prefix as (Hid & Hurl & _). split.
  - apply Hid. reflexivity.
  - rewrite Hurl by reflexivity. vm_compute. reflexivity.
Defined.

End ParsePath.

(** ** The regular-expression engine on literal patterns *)

Section RegExpLiteral.

Import RegExp.

(** A plain string is lexed character by character. *)
Lemma tokenize_plain (s rest : string) :
  plain s = true →
  tokenize (s +:+ rest)
    = match tokenize rest with
      | LOk ts => LOk (map TChr (list_ascii_of_string s) ++ ts)
      | failure => failure
      end.
Proof.
  induction s as [|c s IH]; intros Hs.
  - rewrite append_nil_l. destruct (tokenize rest); reflexivity.
  - rewrite append_cons. simpl in *.
    destruct (classify c) eqn:Hc; try discriminate.
    rewrite (IH Hs). destruct (tokenize rest); reflexivity.
Qed.

Lemma build_chars (l : list ascii) ts current stack n :
  build (map TChr l ++ ts) current stack n
    = build ts (rev (map Chr l) ++ current) stack n.
Proof.
  revert current; induction l as [|a l IH]; intros current; simpl; [reflexivity|].
  rewrite IH, <- app_assoc. reflexivity.
Qed.

Lemma seq_app_run (l : list ascii) rs s cap k :
  run (seq (map Chr l ++ rs)) (string_of_list_ascii l +:+ s) cap k
    = run (seq rs) s cap k.
Proof.
  induction l as [|a l IH]; [reflexivity|].
  simpl. rewrite ?append_cons. simpl. rewrite Ascii.eqb_refl. exact IH.
Qed.

Lemma iterate_S step (k : cont) fuel s cap :
  iterate step k (S fuel) s cap
    = match step s cap
              (λ s' cap', if shorter s' s then iterate step k fuel s' cap' else None) with
      | Some res => Some res
      | None => k s cap
      end.
Proof. reflexivity. Qed.

Lemma run_any_cons a s cap (k : cont) :
  run Any (String a s) cap k
    = if is_line_terminator (String a s) then None else k s cap.
Proof. reflexivity. Qed.

Lemma run_any_nil cap (k : cont) : run Any "" cap k = None.
Proof. reflexivity. Qed.

(** [.+] takes everything up to the end of a non-empty single line. *)
Lemma iterate_any (s : string) (k : cont) cap res :
  single_line s = true → k "" cap = Some res →
  ∀ fuel, (String.length s ≤ fuel)%nat →
          iterate (run Any) k fuel s cap = Some res.
Proof.
  intros Hs Hk. induction s as [|a s IH]; intros fuel Hfuel.
  - destruct fuel; [exact Hk|]. rewrite iterate_S, run_any_nil. exact Hk.
  - simpl in Hs. apply andb_true_iff in Hs as [Ha Hs].
    destruct fuel as [|fuel]; [simpl in Hfuel; lia|].
    rewrite iterate_S, run_any_cons. apply negb_true_iff in Ha. rewrite Ha.
    unfold shorter. simpl String.length.
    destruct (Nat.ltb_spec (String.length s) (S (String.length s))); [|lia].
    rewrite (IH Hs fuel) by (simpl in Hfuel; lia). reflexivity.
Qed.

Lemma run_plus_any (s : string) (k : cont) cap res :
  s ≠ "" → single_line s = true → k "" cap = Some res →
  run (Plus Any) s cap k = Some res.
Proof.
  intros Hne Hs Hk. destruct s as [|a s]; [contradiction|].
  simpl in Hs. apply andb_true_iff in Hs as [Ha Hs].
  change (run (Plus Any) (String a s) cap k)
    with (run Any (String a s) cap
            (λ s' cap', iterate (run Any) k (String.length s') s' cap')).
  rewrite run_any_cons. apply negb_true_iff in Ha. rewrite Ha.
  apply iterate_any; [exact Hs | exact Hk | lia].
Qed.

End RegExpLiteral.

Section RawPattern.

Import RegExp Deleter.

Lemma tokenize_escaped (e : ascii) (rest : string) :
  is_syntax_char e = true →
  tokenize (String "\" (String e rest)) = lcons (TChr e) (tokenize rest).
Proof.
  intros H. cbn [tokenize]. change (classify "\") with CBackslash.
  cbv iota. now rewrite H.
Qed.

Lemma tokenize_rawPattern (c : Config) :
  plain_config c = true →
  tokenize (rawPattern c)
    = LOk (map TChr (list_ascii_of_string (raw_text c))
             ++ [TOpen true; TDot; TQuant QPlus; TClose]).
Proof.
  unfold plain_config. rewrite !andb_true_iff. intros [[Ho Hr] Hb].
  change (rawPattern c) with
    ("raw" +:+ String "\" (String "." ("githubusercontent" +:+
       String "\" (String "." ("com/" +:+ owner c +:+ "/" +:+ repo c +:+ "/"
         +:+ branch c +:+ "/" +:+ "(.+)"))))).
  rewrite (tokenize_plain "raw") by reflexivity.
  rewrite tokenize_escaped by reflexivity.
  rewrite (tokenize_plain "githubusercontent") by reflexivity.
  rewrite tokenize_escaped by reflexivity.
  rewrite (tokenize_plain "com/") by reflexivity.
  rewrite (tokenize_plain (owner c)) by exact Ho.
  rewrite (tokenize_plain "/") by reflexivity.
  rewrite (tokenize_plain (repo c)) by exact Hr.
  rewrite (tokenize_plain "/") by reflexivity.
  rewrite (tokenize_plain (branch c)) by exact Hb.
  rewrite (tokenize_plain "/") by reflexivity.
  change (tokenize "(.+)") with (LOk [TOpen true; TDot; TQuant QPlus; TClose]).
  unfold raw_text. cbn [lcons]. f_equal.
  rewrite !list_ascii_of_append, !map_app, <- !app_assoc. reflexivity.
Qed.

(** With a plain configuration the raw-content pattern is the literal
    text followed by the capturing group [(.+)]. *)
Lemma parse_rawPattern (c : Config) :
  plain_config c = true →
  parse (rawPattern c)
    = POk (seq (map Chr (list_ascii_of_string (raw_text c))
                  ++ [Group (Some 1%nat) (seq [Plus Any])])).
Proof.
  intros Hc. unfold parse. rewrite (tokenize_rawPattern c Hc), build_chars.
  cbn [build quantified quantify rev app seq]. rewrite app_nil_r.
  rewrite rev_involutive. reflexivity.
Qed.

Lemma search_skip (x y : ascii) rs s :
  Ascii.eqb y x = false →
  search (seq (Chr x :: rs)) (String y s) = search (seq (Chr x :: rs)) s.
Proof. intros H. cbn [search seq run]. rewrite H. reflexivity. Qed.

Lemma search_hit r s cap :
  run r s None (λ _ cap', Some cap') = Some cap → search r s = Some cap.
Proof. intros H. destruct s; cbn [search]; rewrite H; reflexivity. Qed.

Lemma consumed_all (s : string) : consumed s "" = s.
Proof.
  unfold consumed. simpl String.length. rewrite Nat.sub_0_r.
  rewrite <- (length_list_ascii s), firstn_all.
  apply string_of_list_ascii_of_string.
Qed.


End RawPattern.

Section RawUrl.

Import Deleter.




End RawUrl.

(** ** The deleter: requests and failures *)

Section DeleteImage.

Import Deleter.

Variable env : Env.
Variable c : Config.

Lemma report_prints (error : Exn) (w : World) :
  ∃ a, report error w
       = (inr tt, {| requests := requests w;
                     console := console w ++ [{| stream := Err; args := a |}] |}).
Proof. destruct error; eexists; reflexivity. Qed.

(** Replaces a call of the [catch] block in the goal by its effect. *)
Ltac run_report :=
  match goal with
  | |- context [report ?e ?w] =>
      let a := fresh "a" in destruct (report_prints e w) as [a ->]
  end.

(** [getFileSha] sends one GET; a 404 answer becomes the descriptive
    error, any other failure is passed on. *)
Lemma getFileSha_run (filePath : string) (w : World) :
  getFileSha env c filePath w
    = (match axios_get env (requests w) (get_request c filePath) with
       | inr data => inr (data_sha data)
       | inl e => if is_not_found e
                  then inl (Error ("找不到檔案: " +:+ filePath))
                  else inl e
       end,
       {| requests := requests w ++ [get_request c filePath];
          console := console w |}).
Proof.
  unfold getFileSha, try_catch, bind, get, ret, throw.
  destruct (axios_get env (requests w) (get_request c filePath)) as [e|f]; [|reflexivity].
  destruct (is_not_found e); reflexivity.
Qed.

(** The requests of one [deleteImage], by cases on the path resolution
    and on the answer to the GET. *)
Lemma deleteImage_requests (input : string) (w : World) :
  requests (snd (deleteImage env c input w))
    = requests w ++
      match parsePath env c input with
      | inl _ => []
      | inr p =>
          match axios_get env (requests w) (get_request c p) with
          | inl _ => [get_request c p]
          | inr data => [get_request c p; delete_request c p (data_sha data)]
          end
      end.
Proof.
  unfold deleteImage, try_catch, attempt.
  unfold bind at 1. unfold lift.
  destruct (parsePath env c input) as [e|p].
  - destruct (report_prints e w) as [a ->]. simpl. now rewrite app_nil_r.
  - unfold bind, console_log, print. cbn [requests console].
    rewrite getFileSha_run. cbn [requests console].
    destruct (axios_get env (requests w) (get_request c p)) as [e|f].
    + destruct (is_not_found e); run_report; reflexivity.
    + unfold send. cbn [requests console].
      destruct (axios env _ (delete_request c p (data_sha f))) as [e|f'].
      * run_report. cbn [snd requests]. now rewrite <- app_assoc.
      * cbn [snd requests]. now rewrite <- app_assoc.
Qed.

Lemma deleteImage_returns (input : string) (w : World) :
  fst (deleteImage env c input w) = inr tt.
Proof.
  unfold deleteImage, try_catch.
  destruct (attempt env c input w) as [[e|[]] w1]; [|reflexivity].
  destruct (report_prints e w1) as [a ->]. reflexivity.
Qed.

Lemma deleteImages_run (inputs : list string) (w : World) :
  deleteImages env c inputs w = (inr tt, fold_left (after_item env c) inputs w).
Proof.
  revert w; induction inputs as [|input rest IH]; intros w; [reflexivity|].
  cbn [deleteImages fold_left]. unfold bind at 1.
  pose proof (deleteImage_returns input w) as Hret.
  unfold after_item at 2.
  destruct (deleteImage env c input w) as [r w1]. simpl in Hret. subst r.
  unfold bind at 1. cbn [console_log print snd]. apply IH.
Qed.

(** C4.  [deleteImage] returns normally on every input and in every
    world.  Whatever makes its [try] block fail (the path resolution, a
    not-found answer, any other failure of the API) is caught: the
    function prints one line on the error stream and returns.  Hence a
    batch runs [deleteImage] and prints the separator once per input, in
    order, each item starting from the world its predecessor left, and
    returns normally. *)
Theorem deleteImage_never_throws :
  (∀ input w, fst (deleteImage env c input w) = inr tt) ∧
  (∀ input w error w1,
     attempt env c input w = (inl error, w1) →
     ∃ a, deleteImage env c input w
          = (inr tt, {| requests := requests w1;
                        console := console w1 ++ [{| stream := Err; args := a |}] |})) ∧
  (∀ inputs w,
     deleteImages env c inputs w = (inr tt, fold_left (after_item env c) inputs w)).
Proof.
  split; [exact deleteImage_returns|]. split; [|exact deleteImages_run].
  intros input w error w1 H. unfold deleteImage, try_catch. rewrite H.
  apply report_prints.
Qed.


End DeleteImage.

Lemma deleteImage_never_throws_witness :
  ∃ a, Deleter.deleteImage (Sim.env Sim.remote Sim.local) Sim.acme "images/none.png" Sim.start
       = (inr tt,
          {| requests := [Deleter.get_request Sim.acme "images/none.png"];
             console := [ {| stream := Out; args := [Text "正在處理: images/none.png"] |};
                          {| stream := Out; args := [Text "解析路徑: images/none.png"] |} ]
                        ++ [{| stream := Err; args := a |}] |}).
Proof.
  apply (proj1 (proj2 (deleteImage_never_throws (Sim.env Sim.remote Sim.local) Sim.acme))
           "images/none.png" Sim.start
           (Error "找不到檔案: images/none.png")
           {| requests := [Deleter.get_request Sim.acme "images/none.png"];
              console := [ {| stream := Out; args := [Text "正在處理: images/none.png"] |};
                           {| stream := Out; args := [Text "解析路徑: images/none.png"] |} ] |}).
  vm_compute. reflexivity.
Defined.


(** C5.  The claim fails for a path that names a directory.  The GET of
    [images] in a repository that holds [images/old.png] succeeds, but
    its answer is an array and has no [sha]; [getFileSha] returns
    [undefined], [deleteImage] prints it and sends the DELETE all the
    same, without a sha.  (Here the service refuses that DELETE.) *)
Theorem deleteImage_directory_without_sha :
  let env := Sim.env Sim.remote Sim.local in
  Deleter.parsePath env Sim.acme "images" = inr "images" ∧
  axios_get env [] (Deleter.get_request Sim.acme "images")
    = inr (Entries [Sim.object_at Sim.old_png_url 0]) ∧
  Deleter.deleteImage env Sim.acme "images" Sim.start
    = (inr tt,
       {| requests := [Deleter.get_request Sim.acme "images";
                       Deleter.delete_request Sim.acme "images" None];
          console :=
            [ {| stream := Out; args := [Text "正在處理: images"] |};
              {| stream := Out; args := [Text "解析路徑: images"] |};
              {| stream := Out; args := [Text "取得 SHA: undefined"] |};
              {| stream := Err;
                 args := [Text "❌ 刪除失敗:";
                          Text "Invalid request. sha wasn't supplied."] |} ] |}) ∧
  body (Deleter.delete_request Sim.acme "images" None)
    = DeleteBody "Delete image: images" None "main".
Proof. vm_compute. repeat split. Qed.

(** ** The uploader: batches and the pre-flight check *)

Section UploadImages.

Import Uploader.

Variable env : Env.
Variable c : Config.

(** C8.  When the local path does not exist, [uploadImage] throws the
    error "檔案不存在: <path>" and leaves the world as it found it: no
    request has been sent and nothing has been printed.  The error is
    the local one, not the "GitHub API 錯誤" wrapper of a failed
    request. *)
Theorem uploadImage_missing_file (localFilePath : string)
    (remotePath customFileName : option string) (w : World) :
  existsSync env localFilePath = false →
  uploadImage env c localFilePath remotePath customFileName w
    = (inl (Error ("檔案不存在: " +:+ localFilePath)), w).
Proof.
  intros H. unfold uploadImage, try_catch. unfold bind at 1.
  rewrite H. reflexivity.
Qed.

Variable remotePath : option string.

(** One iteration of the loop appends exactly one entry. *)
Lemma uploadImages_loop_spec (filePaths : list string) :
  ∀ (results : list string) (w : World),
    ∃ added w',
      uploadImages_loop env c filePaths remotePath results w
        = (inr (results ++ added), w') ∧
      batch env c remotePath w filePaths added w'.
Proof.
  induction filePaths as [|filePath rest IH]; intros results w.
  - exists [], w. rewrite app_nil_r. split; [reflexivity | constructor].
  - cbn [uploadImages_loop]. unfold bind at 1. unfold try_catch.
    unfold bind at 1.
    destruct (uploadImage env c filePath remotePath None w) as [[error|url] w1] eqn:Hup.
    + cbn [bind console_error print ret].
      destruct (IH (results ++ [""])
                   {| requests := requests w1;
                      console := console w1 ++
                        [{| stream := Err;
                            args := [Text ("上傳失敗 " +:+ filePath +:+ ":");
                                     Text (exn_message error)] |}] |})
        as (added & w' & Hloop & Hbatch).
      exists ("" :: added), w'. split.
      * unfold bind, console_error, print, ret. cbn. rewrite Hloop.
        now rewrite <- app_assoc.
      * eapply batch_failed; [exact Hup | exact Hbatch].
    + destruct (IH (results ++ [url]) w1) as (added & w' & Hloop & Hbatch).
      exists (url :: added), w'. split.
      * unfold ret. rewrite Hloop. now rewrite <- app_assoc.
      * eapply batch_uploaded; [exact Hup | exact Hbatch].
Qed.

Lemma batch_length w filePaths results w' :
  batch env c remotePath w filePaths results w' →
  List.length results = List.length filePaths.
Proof. induction 1; simpl; congruence. Qed.

(** Position by position: the entry for a path is what its own upload
    returned, or the empty string when that upload threw. *)
Lemma batch_lookup w filePaths results w' :
  batch env c remotePath w filePaths results w' →
  ∀ i filePath,
    filePaths !! i = Some filePath →
    ∃ wi, results !! i
          = Some (match fst (uploadImage env c filePath remotePath None wi) with
                  | inr url => url
                  | inl _ => ""
                  end).
Proof.
  induction 1 as [w | w p rest url w1 results w' Hup _ IH
                    | w p rest error w1 results w' Hup _ IH];
    intros i filePath Hi.
  - destruct i; discriminate Hi.
  - destruct i as [|i]; [|exact (IH i filePath Hi)].
    injection Hi as <-. exists w. now rewrite Hup.
  - destruct i as [|i]; [|exact (IH i filePath Hi)].
    injection Hi as <-. exists w. now rewrite Hup.
Qed.

(** C2.  [uploadImages] always returns (it never throws), and its result
    has one entry per input path, in input order: the download URL of
    the upload of that path when it succeeded, the empty string when it
    failed.  Every path is uploaded in turn, from the world left by the
    paths before it, whether or not those succeeded. *)
Theorem uploadImages_aligned (filePaths : list string) (w : World) :
  ∃ results w',
    uploadImages env c filePaths remotePath w = (inr results, w') ∧
    List.length results = List.length filePaths ∧
    batch env c remotePath w filePaths results w' ∧
    (∀ i filePath,
       filePaths !! i = Some filePath →
       ∃ wi, results !! i
             = Some (match fst (uploadImage env c filePath remotePath None wi) with
                     | inr url => url
                     | inl _ => ""
                     end)).
Proof.
  destruct (uploadImages_loop_spec filePaths [] w) as (results & w' & Hrun & Hbatch).
  exists results, w'. split; [exact Hrun|]. split; [|split].
  - exact (batch_length _ _ _ _ Hbatch).
  - exact Hbatch.
  - exact (batch_lookup _ _ _ _ Hbatch).
Qed.

End UploadImages.

Lemma uploadImage_missing_file_witness :
  existsSync (Sim.env Sim.remote Sim.local) "./missing.png" = false ∧
  Uploader.uploadImage (Sim.env Sim.remote Sim.local) Sim.acme "./missing.png"
    None None Sim.start
    = (inl (Error "檔案不存在: ./missing.png"), Sim.start).
Proof.
  split; [vm_compute; reflexivity|].
  apply (uploadImage_missing_file (Sim.env Sim.remote Sim.local) Sim.acme
           "./missing.png" None None Sim.start).
  vm_compute. reflexivity.
Defined.

Lemma uploadImages_aligned_witness :
  ∃ results w',
    Uploader.uploadImages (Sim.env Sim.remote Sim.local) Sim.acme
      ["./photo.png"; "./missing.png"; "./photo.png"] None Sim.start
      = (inr results, w') ∧
    results = ["https://raw.githubusercontent.com/download/photo-1700000000000.png";
               "";
               "https://raw.githubusercontent.com/download/photo-1700000000001.png"].
Proof.
  destruct (uploadImages_aligned (Sim.env Sim.remote Sim.local) Sim.acme None
              ["./photo.png"; "./missing.png"; "./photo.png"] Sim.start)
    as (results & w' & Hrun & _).
  exists results, w'. split; [exact Hrun|].
  vm_compute in Hrun. inversion Hrun. reflexivity.
Defined.

(** ** Node's path functions *)

(** The examples of Node's documentation, and the corner cases of its
    implementation. *)
Example extname_examples :
  Path.extname "index.html" = ".html" ∧
  Path.extname "index.coffee.md" = ".md" ∧
  Path.extname "index." = "." ∧
  Path.extname "index" = "" ∧
  Path.extname ".index" = "" ∧
  Path.extname ".index.md" = ".md" ∧
  Path.extname ".." = "" ∧
  Path.extname "..." = "." ∧
  Path.extname "dir.d/file" = "" ∧
  Path.extname "dir/file.png/" = ".png".
Proof. vm_compute. repeat split. Qed.

Example basename_examples :
  Path.basename "/foo/bar/baz/asdf/quux.html" = "quux.html" ∧
  Path.basename_ext "/foo/bar/baz/asdf/quux.html" ".html" = "quux" ∧
  Path.basename "./photo.png" = "photo.png" ∧
  Path.basename "dir/sub//" = "sub" ∧
  Path.basename "/" = "" ∧
  Path.basename_ext "..." "." = "..".
Proof. vm_compute. repeat split. Qed.

Section PathFacts.

Import Path.

Lemma length_string_of_list (l : list ascii) :
  String.length (string_of_list_ascii l) = List.length l.
Proof. induction l as [|a l IH]; simpl; [reflexivity | now rewrite IH]. Qed.

Lemma string_of_list_app (a b : list ascii) :
  string_of_list_ascii (a ++ b) = string_of_list_ascii a +:+ string_of_list_ascii b.
Proof.
  induction a as [|x a IH]; [reflexivity|].
  simpl. rewrite append_cons. now rewrite IH.
Qed.

Lemma substring_append (a b : string) :
  JS.substring (a +:+ b) (String.length a) = b.
Proof. induction a as [|x a IH]; [now destruct b | exact IH]. Qed.

Lemma prefix_refl (s : string) : String.prefix s s = true.
Proof.
  induction s as [|a s IH]; [reflexivity|].
  simpl. destruct (ascii_dec a a); [exact IH | contradiction].
Qed.

Lemma endsWith_append (a b : string) : JS.endsWith (a +:+ b) b = true.
Proof.
  unfold JS.endsWith. rewrite length_append.
  replace (String.length a + String.length b - String.length b)%nat
    with (String.length a) by lia.
  rewrite substring_append. apply prefix_refl.
Qed.

(** *** The last component *)

Lemma take_component_no_slash (l acc : list ascii) :
  slash ∉ acc → slash ∉ take_component l acc.
Proof.
  revert acc; induction l as [|x l IH]; intros acc Hacc; [exact Hacc|].
  simpl. destruct (Ascii.eqb_spec x slash) as [|Hx]; [exact Hacc|].
  apply IH. intros [H|H]%elem_of_cons; [congruence | contradiction].
Qed.

Lemma last_component_no_slash (p : string) : slash ∉ last_component p.
Proof. apply take_component_no_slash, not_elem_of_nil. Qed.

Lemma take_component_all (l acc : list ascii) :
  slash ∉ l → take_component l acc = rev l ++ acc.
Proof.
  revert acc; induction l as [|x l IH]; intros acc Hl; [reflexivity|].
  apply not_elem_of_cons in Hl as [Hx Hl]. simpl.
  destruct (Ascii.eqb_spec x slash) as [|_]; [congruence|].
  rewrite (IH _ Hl), <- app_assoc. reflexivity.
Qed.

Lemma drop_slashes_none (l : list ascii) : slash ∉ l → drop_slashes l = l.
Proof.
  destruct l as [|x l]; [reflexivity|]. intros [Hx _]%not_elem_of_cons.
  simpl. destruct (Ascii.eqb_spec x slash); [congruence | reflexivity].
Qed.

(** A name without separators is its own last component. *)
Lemma last_component_whole (p : string) :
  slash ∉ list_ascii_of_string p → last_component p = list_ascii_of_string p.
Proof.
  intros Hp. unfold last_component.
  assert (slash ∉ rev (list_ascii_of_string p)) as Hrev.
  { intros H. apply Hp. apply list_elem_of_In, in_rev, list_elem_of_In, H. }
  rewrite (drop_slashes_none _ Hrev), (take_component_all _ _ Hrev).
  rewrite rev_involutive. apply app_nil_r.
Qed.

(** *** The last dot *)

Lemma last_dot_None (l : list ascii) : last_dot l = None ↔ dot ∉ l.
Proof.
  induction l as [|x l IH]; simpl.
  - split; [intros _; apply not_elem_of_nil | reflexivity].
  - rewrite not_elem_of_cons. destruct (last_dot l) as [i|].
    + split; [discriminate|]. intros [_ H]. apply IH in H. discriminate.
    + destruct (Ascii.eqb_spec x dot) as [->|Hx].
      * split; [discriminate | intros [H _]; contradiction].
      * split; [|reflexivity]. intros _. split; [congruence | now apply IH].
Qed.

Lemma last_dot_app (a b : list ascii) :
  last_dot (a ++ b)
    = match last_dot b with
      | Some i => Some (List.length a + i)%nat
      | None => last_dot a
      end.
Proof.
  induction a as [|x a IH]; simpl.
  - destruct (last_dot b); reflexivity.
  - rewrite IH. destruct (last_dot b); [reflexivity|].
    destruct (last_dot a); reflexivity.
Qed.

(** The index found is that of a '.', and no '.' follows it. *)
Lemma last_dot_Some (l : list ascii) (i : nat) :
  last_dot l = Some i → ∃ rest, drop i l = dot :: rest ∧ dot ∉ rest.
Proof.
  revert i; induction l as [|x l IH]; intros i; simpl; [discriminate|].
  destruct (last_dot l) as [j|] eqn:Hl.
  - intros [= <-]. exact (IH j eq_refl).
  - destruct (Ascii.eqb_spec x dot) as [->|]; [|discriminate].
    intros [= <-]. exists l. split; [reflexivity | now apply last_dot_None].
Qed.

Lemma stem_length_le (c : list ascii) : (stem_length c ≤ List.length c)%nat.
Proof.
  unfold stem_length. destruct (last_dot c) as [[|i]|] eqn:H; try lia.
  case_bool_decide; [lia|].
  destruct (last_dot_Some c (S i) H) as (rest & Hd & _).
  apply (f_equal List.length) in Hd. rewrite length_drop in Hd. simpl in Hd. lia.
Qed.

(** Either the extension is empty, or it starts at a '.' that is not
    the first character of the component. *)
Lemma stem_length_cases (c : list ascii) :
  (stem_length c = List.length c ∧
   (c = [dot; dot] ∨ last_dot c = None ∨ last_dot c = Some 0%nat)) ∨
  (∃ i, stem_length c = S i ∧ last_dot c = Some (S i) ∧ (S i < List.length c)%nat).
Proof.
  unfold stem_length. destruct (last_dot c) as [[|i]|] eqn:H; auto.
  case_bool_decide; [auto|]. right. exists i. repeat split.
  destruct (last_dot_Some c (S i) H) as (rest & Hd & _).
  apply (f_equal List.length) in Hd. rewrite length_drop in Hd. simpl in Hd. lia.
Qed.

(** *** Stem and extension *)

(** Removing the extension of a path from its base name leaves the part
    of the last component before the extension. *)
Lemma basename_without_extname (p : string) :
  basename_ext p (extname p)
    = string_of_list_ascii (take (stem_length (last_component p)) (last_component p)).
Proof.
  unfold basename_ext, extname, basename.
  set (c := last_component p). pose proof (stem_length_le c) as Hle.
  destruct (stem_length_cases c) as [[Hj _]|(i & Hj & _ & Hi)]; rewrite Hj in *.
  - rewrite drop_all, firstn_all. reflexivity.
  - assert (String.length (string_of_list_ascii (drop (S i) c))
            = (List.length c - S i)%nat) as Hext
      by (now rewrite length_string_of_list, length_drop).
    assert (string_of_list_ascii (drop (S i) c) ≠ "") as Hne.
    { intros H. rewrite H in Hext. simpl in Hext. lia. }
    apply String.eqb_neq in Hne. rewrite Hne.
    rewrite <- (take_drop (S i) c) at 1. rewrite string_of_list_app, endsWith_append.
    assert (string_of_list_ascii c ≠ string_of_list_ascii (drop (S i) c)) as Hlen.
    { intros H. apply (f_equal String.length) in H.
      rewrite Hext, length_string_of_list in H. lia. }
    apply String.eqb_neq in Hlen. rewrite Hlen. cbn [negb andb].
    rewrite Hext, length_string_of_list, list_ascii_of_string_of_list_ascii.
    f_equal. f_equal. lia.
Qed.

(** The characters of a rendered integer are digits or a minus sign. *)
Lemma show_N_chars (n : N) :
  Forall (λ x, x ≠ slash ∧ x ≠ dot) (list_ascii_of_string (JS.show_N n)).
Proof.
  unfold JS.show_N. induction (N.to_uint n); simpl;
    repeat constructor; try discriminate; assumption.
Qed.

Lemma show_Z_chars (z : Z) :
  Forall (λ x, x ≠ slash ∧ x ≠ dot) (list_ascii_of_string (JS.show_Z z)).
Proof.
  destruct z as [|q|q]; [apply show_N_chars | apply show_N_chars |].
  unfold JS.show_Z. rewrite list_ascii_of_append. apply Forall_app. split.
  - repeat constructor; discriminate.
  - apply show_N_chars.
Qed.

(** The characters of the generated name, in terms of the last
    component [c] of the original and the point [j] where it divides. *)
Lemma stamped_chars (t : Z) (p : string) :
  list_ascii_of_string (Uploader.stamped t p)
    = take (stem_length (last_component p)) (last_component p)
        ++ ("-"%char :: list_ascii_of_string (JS.show_Z t))
        ++ drop (stem_length (last_component p)) (last_component p).
Proof.
  unfold Uploader.stamped. rewrite basename_without_extname. unfold extname.
  rewrite !list_ascii_of_append, !list_ascii_of_string_of_list_ascii.
  reflexivity.
Qed.

Lemma stamped_no_slash (t : Z) (p : string) :
  slash ∉ list_ascii_of_string (Uploader.stamped t p).
Proof.
  rewrite stamped_chars. pose proof (last_component_no_slash p) as Hc.
  intros [H|[H|H]%elem_of_app]%elem_of_app.
  - apply Hc. exact (subseteq_take _ _ _ H).
  - apply elem_of_cons in H as [H|H]; [discriminate H|].
    pose proof (show_Z_chars t) as Ht. rewrite Forall_forall in Ht.
    destruct (Ht _ H) as [Hs _]. now apply Hs.
  - apply Hc. exact (subseteq_drop _ _ _ H).
Qed.

Lemma stamped_length (t : Z) (p : string) :
  List.length (list_ascii_of_string (Uploader.stamped t p))
    = (List.length (last_component p) + 1
         + String.length (JS.show_Z t))%nat.
Proof.
  rewrite stamped_chars, !length_app. cbn [List.length].
  pose proof (stem_length_le (last_component p)).
  rewrite length_take, length_drop, length_list_ascii. lia.
Qed.

(** The generated name is never the original one. *)
Lemma stamped_differs (t : Z) (p : string) : Uploader.stamped t p ≠ p.
Proof.
  intros H. pose proof (stamped_no_slash t p) as Hs.
  pose proof (stamped_length t p) as Hl. rewrite H in Hs, Hl.
  rewrite (last_component_whole p Hs) in Hl. lia.
Qed.

(** Unless the last component is "..", the generated name has the
    extension of the original. *)
Lemma stamped_extname (t : Z) (p : string) :
  last_component p ≠ [dot; dot] →
  extname (Uploader.stamped t p) = extname p.
Proof.
  intros Hdd. unfold extname at 1.
  rewrite (last_component_whole _ (stamped_no_slash t p)), stamped_chars.
  unfold extname. set (c := last_component p) in *.
  set (ts := "-"%char :: list_ascii_of_string (JS.show_Z t)).
  assert (last_dot ts = None) as Hts.
  { apply last_dot_None. subst ts. intros [H|H]%elem_of_cons; [discriminate H|].
    pose proof (show_Z_chars t) as Ht. rewrite Forall_forall in Ht.
    destruct (Ht _ H) as [_ Hd]. now apply Hd. }
  f_equal.
  destruct (stem_length_cases c) as [[Hj Hc]|(i & Hj & Hi & _)]; rewrite Hj.
  - rewrite drop_all, firstn_all, app_nil_r.
    assert (stem_length (c ++ ts) = List.length (c ++ ts)) as ->.
    { unfold stem_length. rewrite last_dot_app, Hts.
      destruct Hc as [Hc|[Hc|Hc]]; [contradiction | now rewrite Hc | now rewrite Hc]. }
    apply drop_all.
  - destruct (last_dot_Some c (S i) Hi) as (rest & Hdrop & Hrest).
    rewrite app_assoc.
    assert (stem_length ((take (S i) c ++ ts) ++ drop (S i) c)
            = List.length (take (S i) c ++ ts)) as ->.
    { unfold stem_length. rewrite last_dot_app, Hdrop.
      assert (last_dot (dot :: rest) = Some 0%nat) as ->.
      { simpl. apply last_dot_None in Hrest. now rewrite Hrest. }
      rewrite Nat.add_0_r, length_app. subst ts. cbn [List.length].
      replace (List.length (take (S i) c) + S (List.length (list_ascii_of_string (JS.show_Z t))))%nat
        with (S (List.length (take (S i) c) + List.length (list_ascii_of_string (JS.show_Z t))))
        by lia.
      case_bool_decide as Heq; [|reflexivity].
      apply (f_equal List.length) in Heq. rewrite !length_app in Heq.
      cbn [List.length] in Heq.
      pose proof (stem_length_le c) as Hle. rewrite Hj in Hle.
      rewrite length_take in Heq. lia. }
    apply drop_app_length.
Qed.

End PathFacts.

(** ** The uploader: generated names *)

Section GenerateFileName.

Import Uploader.

Lemma append_assoc (a b c : string) : (a +:+ b) +:+ c = a +:+ (b +:+ c).
Proof.
  induction a as [|x a IH]; [reflexivity|].
  rewrite !append_cons. now rewrite IH.
Qed.

Lemma stamped_endsWith (t : Z) (p : string) :
  JS.endsWith (stamped t p) (Path.extname p) = true.
Proof.
  unfold stamped. rewrite <- !append_assoc. apply endsWith_append.
Qed.

(** What [uploadImage] sends for an existing file when neither a remote
    directory nor a custom name is given. *)
Lemma uploadImage_default_request (env : Env) (c : Config)
    (localFilePath : string) (content : list Byte.byte) (w : World) :
  disk env !! localFilePath = Some (File content) →
  let fileName :=
    stamped (Date_now env (requests w)) (Path.basename localFilePath) in
  requests (snd (uploadImage env c localFilePath None None w))
    = requests w ++
      [put_request c ("images/" +:+ fileName) fileName (Base64.encode content)].
Proof.
  intros Hfile fileName. unfold uploadImage, try_catch.
  unfold bind at 1. unfold existsSync. rewrite Hfile.
  rewrite bool_decide_eq_true_2 by (eexists; reflexivity).
  unfold ret at 1. unfold bind at 1. unfold generateFileName, now, bind at 1.
  unfold ret at 1. unfold bind at 1. unfold lift, fileToBase64, readFileSync.
  rewrite Hfile. unfold bind, console_log, print, send. cbn [requests console].
  fold fileName.
  destruct (axios env (requests w) _) as [[m|r m]|f]; reflexivity.
Qed.

(** C7.  [generateFileName] reads the clock and returns
    <stem>-<millis><extension>, where the extension is that of the
    original name according to [path.extname] and the stem is the base
    name without it.  The result is never the original name, it ends
    with the original's extension, and (unless the original's last
    component is "..") [path.extname] of the result is the original's
    extension.  It is the name [uploadImage] uses when no custom name is
    supplied. *)
Theorem generateFileName_form (env : Env) (originalName : string) (w : World) :
  ∃ generated,
    generateFileName env originalName w = (inr generated, w) ∧
    generated
      = Path.basename_ext originalName (Path.extname originalName)
          +:+ "-" +:+ JS.show_Z (Date_now env (requests w))
          +:+ Path.extname originalName ∧
    generated ≠ originalName ∧
    JS.endsWith generated (Path.extname originalName) = true ∧
    (Path.basename originalName ≠ ".." →
     Path.extname generated = Path.extname originalName) ∧
    (∀ c localFilePath content,
       originalName = Path.basename localFilePath →
       disk env !! localFilePath = Some (File content) →
       requests (snd (uploadImage env c localFilePath None None w))
         = requests w ++
           [put_request c ("images/" +:+ generated) generated
              (Base64.encode content)]).
Proof.
  exists (stamped (Date_now env (requests w)) originalName).
  split; [reflexivity|]. split; [reflexivity|]. split; [apply stamped_differs|].
  split; [apply stamped_endsWith|]. split.
  - intros Hdd. apply stamped_extname. intros H. apply Hdd.
    unfold Path.basename. rewrite H. reflexivity.
  - intros c localFilePath content -> Hfile.
    exact (uploadImage_default_request env c localFilePath content w Hfile).
Qed.

End GenerateFileName.

Lemma generateFileName_form_witness :
  ∃ generated,
    Uploader.generateFileName (Sim.env Sim.remote Sim.local) "photo.png" Sim.start
      = (inr generated, Sim.start) ∧
    generated = "photo-1700000000000.png" ∧
    Path.extname generated = ".png" ∧
    requests (snd (Uploader.uploadImage (Sim.env Sim.remote Sim.local) Sim.acme
                     "./photo.png" None None Sim.start))
      = [Uploader.put_request Sim.acme ("images/" +:+ generated) generated "TWFu"].
Proof.
  destruct (generateFileName_form (Sim.env Sim.remote Sim.local) "photo.png" Sim.start)
    as (generated & Hrun & Hform & _ & _ & Hext & Hput).
  exists generated. split; [exact Hrun|]. split; [rewrite Hform; vm_compute; reflexivity|].
  split.
  - rewrite Hext by discriminate. vm_compute. reflexivity.
  - apply (Hput Sim.acme "./photo.png" [Byte.x4d; Byte.x61; Byte.x6e]).
    + vm_compute. reflexivity.
    + vm_compute. reflexivity.
Defined.

(** The exception: for the name "..", whose extension is empty, Node
    finds the extension ".-<millis>" in the generated name. *)
Example stamped_dot_dot :
  Path.extname ".." = "" ∧
  Uploader.stamped 1700000000000 ".." = "..-1700000000000" ∧
  Path.extname (Uploader.stamped 1700000000000 "..") = ".-1700000000000".
Proof. vm_compute. repeat split. Qed.

(* ===================================================================== *)
(** * Further properties of the code *)
(* ===================================================================== *)

(** ** The constructor *)

Section Constructor.

(** A required variable reads as empty exactly when it is unset or set
    to the empty string. *)
Lemma getenv_required (vars : gmap string string) (x : string) :
  (String.eqb (getenv vars x "") "" = true ∧
   (vars !! x = None ∨ vars !! x = Some "")) ∨
  (String.eqb (getenv vars x "") "" = false ∧
   vars !! x = Some (getenv vars x "") ∧ getenv vars x "" ≠ "").
Proof.
  unfold getenv, JS.opt_or_else, JS.or_else.
  destruct (vars !! x) as [v|]; [|left; auto].
  destruct (String.eqb_spec v "") as [->|Hv]; [left; auto|].
  right. apply String.eqb_neq in Hv as Hv'. rewrite Hv'. auto.
Qed.

Lemma getenv_default (vars : gmap string string) (x fallback : string) :
  getenv vars x fallback = fallback ∨
  (vars !! x = Some (getenv vars x fallback) ∧ getenv vars x fallback ≠ "").
Proof.
  unfold getenv, JS.opt_or_else, JS.or_else.
  destruct (vars !! x) as [v|]; [|now left].
  destruct (String.eqb_spec v ""); [now left | now right].
Qed.

(** X1.  The constructor succeeds exactly when GITHUB_OWNER, GITHUB_REPO
    and GITHUB_TOKEN are all set to non-empty values; the configuration
    then holds those values, and its branch is GITHUB_BRANCH when that is
    set and non-empty and "main" otherwise, so no field of a constructed
    configuration is empty.  Otherwise it throws the one configuration
    error. *)
Theorem constructor_requires_three_variables (vars : gmap string string) :
  match constructor vars with
  | inr c =>
      vars !! "GITHUB_OWNER" = Some (owner c) ∧ owner c ≠ "" ∧
      vars !! "GITHUB_REPO" = Some (repo c) ∧ repo c ≠ "" ∧
      vars !! "GITHUB_TOKEN" = Some (token c) ∧ token c ≠ "" ∧
      branch c ≠ "" ∧
      (∀ v, vars !! "GITHUB_BRANCH" = Some v → v ≠ "" → branch c = v) ∧
      (vars !! "GITHUB_BRANCH" = None ∨ vars !! "GITHUB_BRANCH" = Some "" →
       branch c = "main")
  | inl error =>
      error = Error "請設定環境變數: GITHUB_OWNER, GITHUB_REPO, GITHUB_TOKEN" ∧
      ∃ x, x ∈ ["GITHUB_OWNER"; "GITHUB_REPO"; "GITHUB_TOKEN"] ∧
           (vars !! x = None ∨ vars !! x = Some "")
  end.
Proof.
  unfold constructor, validateConfig. cbn [owner repo token branch].
  destruct (getenv_required vars "GITHUB_OWNER") as [[Eo Ho]|(Eo & Ho & Ho')];
    rewrite Eo;
    [split; [reflexivity|]; exists "GITHUB_OWNER"; split; [rewrite !elem_of_cons; auto | exact Ho]|].
  destruct (getenv_required vars "GITHUB_REPO") as [[Er Hr]|(Er & Hr & Hr')];
    rewrite Er;
    [split; [reflexivity|]; exists "GITHUB_REPO"; split; [rewrite !elem_of_cons; auto | exact Hr]|].
  destruct (getenv_required vars "GITHUB_TOKEN") as [[Et Ht]|(Et & Ht & Ht')];
    rewrite Et;
    [split; [reflexivity|]; exists "GITHUB_TOKEN"; split; [rewrite !elem_of_cons; auto | exact Ht]|].
  cbn [orb owner repo token branch].
  repeat split; try assumption.
  - destruct (getenv_default vars "GITHUB_BRANCH" "main") as [->|[_ H]];
      [discriminate | exact H].
  - intros v Hv Hne. unfold getenv. rewrite Hv. cbn [JS.opt_or_else].
    unfold JS.or_else. destruct (String.eqb_spec v ""); [contradiction | reflexivity].
  - intros [H|H]; unfold getenv; rewrite H; reflexivity.
Qed.

End Constructor.

(** ** The lister: more about [formatSize] *)

Section FormatSizeMore.

Import Lister.

(** X2.  A size below 1 KB is printed exactly: the byte count, a space
    and the unit B, with no rounding. *)
Theorem formatSize_bytes_exact (b : N) :
  (0 < b < 1024)%N → formatSize b = JS.show_N b +:+ " B".
Proof.
  intros [Hpos Hlt].
  assert (unit_index b = 0%nat) as Hi.
  { pose proof (proj2 (unit_index_lt b 1 Hpos)) as H.
    change (k ^ N.of_nat 1)%N with 1024%N in H. specialize (H Hlt). lia. }
  unfold formatSize. destruct (N.eqb_spec b 0); [lia|].
  rewrite (magnitude_bytes b Hpos Hi), Hi. reflexivity.
Qed.

Lemma formatSize_bytes_exact_witness :
  (0 < 1023 < 1024)%N ∧ formatSize 1023 = "1023 B".
Proof.
  split; [split; reflexivity|].
  apply (formatSize_bytes_exact 1023). split; reflexivity.
Defined.

(** X3.  Among the byte counts from 1 to 1024^5 - 4, a larger count
    never gets a smaller unit, and counts in the same power-of-1024
    bracket get the same unit. *)
Theorem unit_index_monotone (a b : N) :
  (0 < a ≤ b)%N → (b ≤ k ^ 5 - 4)%N →
  (unit_index a ≤ unit_index b)%nat ∧
  (∀ i : nat, (k ^ N.of_nat i ≤ a)%N → (b < k ^ N.of_nat (S i))%N →
              unit_name (unit_index a) = unit_name (unit_index b)).
Proof.
  intros [Hpos Hab] _. split.
  - unfold unit_index.
    pose proof (N.Div0.div_le_mono _ _ (N.log2 k) (N.log2_le_mono a b Hab)). lia.
  - intros i Hlo Hhi.
    assert (∀ x, (k ^ N.of_nat i ≤ x < k ^ N.of_nat (S i))%N → unit_index x = i) as Hx.
    { intros x [Hx1 Hx2].
      assert (0 < x)%N as Hxpos by (pose proof (k_pow_pos (N.of_nat i)); lia).
      pose proof (proj2 (unit_index_lt x (S i) Hxpos) Hx2).
      destruct (decide (unit_index x < i)%nat) as [Hlt|]; [|lia].
      apply (unit_index_lt x i Hxpos) in Hlt. lia. }
    rewrite (Hx a), (Hx b) by lia. reflexivity.
Qed.

Lemma unit_index_monotone_witness :
  (unit_index 1024 ≤ unit_index 1048575)%nat ∧
  unit_name (unit_index 1024) = unit_name (unit_index 1048575).
Proof.
  destruct (unit_index_monotone 1024 1048575) as [H1 H2].
  - split; [reflexivity | discriminate].
  - vm_compute. discriminate.
  - split; [exact H1|]. apply (H2 1%nat); [discriminate | reflexivity].
Defined.

End FormatSizeMore.

(** ** The deleter: outcomes and batches *)

Section DeleteMore.

Import Deleter.

Variable env : Env.
Variable c : Config.

Lemma extend_extend w s1 l1 s2 l2 :
  extend (extend w s1 l1) s2 l2 = extend w (s1 ++ s2) (l1 ++ l2).
Proof. unfold extend. cbn [requests console]. now rewrite !app_assoc. Qed.

Lemma extend_nil w : extend w [] [] = w.
Proof. destruct w. unfold extend. cbn. now rewrite !app_nil_r. Qed.

Lemma report_extend (error : Exn) (w : World) :
  ∃ a, report error w = (inr tt, extend w [] [{| stream := Err; args := a |}]).
Proof.
  destruct (report_prints error w) as [a ->]. exists a.
  unfold extend. now rewrite app_nil_r.
Qed.

(** One [deleteImage], step by step. *)
Lemma deleteImage_run (input : string) (w : World) :
  deleteImage env c input w
    = match parsePath env c input with
      | inl e => report e w
      | inr p =>
          let lines := [out ("正在處理: " +:+ input); out ("解析路徑: " +:+ p)] in
          match axios_get env (requests w) (get_request c p) with
          | inl e => report (get_failure p e) (extend w [get_request c p] lines)
          | inr data =>
              let sent := [get_request c p; delete_request c p (data_sha data)] in
              let lines' :=
                lines ++ [out ("取得 SHA: " +:+ JS.show_opt (data_sha data))] in
              match axios env (requests w ++ [get_request c p])
                      (delete_request c p (data_sha data)) with
              | inl e => report e (extend w sent lines')
              | inr _ => (inr tt, extend w sent (lines' ++ [success_line]))
              end
          end
      end.
Proof.
  unfold deleteImage, try_catch, attempt.
  unfold bind at 1. unfold lift.
  destruct (parsePath env c input) as [e|p]; [reflexivity|].
  unfold bind, console_log, print. cbn [requests console].
  rewrite getFileSha_run. cbn [requests console].
  destruct (axios_get env (requests w) (get_request c p)) as [e|f].
  - unfold get_failure, extend, out. cbn [app]. rewrite <- !app_assoc.
    destruct (is_not_found e); reflexivity.
  - unfold send. cbn [requests console].
    destruct (axios env (requests w ++ [get_request c p])
                (delete_request c p (data_sha f))) as [e|f'];
      unfold extend, out, success_line, out; cbn [app requests console];
      rewrite <- !app_assoc; reflexivity.
Qed.

(** X4.  The last line [deleteImage] prints tells how it went: it is the
    success line exactly when the path resolved and both requests
    succeeded, and a line on the error stream in every other case. *)
Theorem deleteImage_last_line (input : string) (w : World) :
  (last (console (snd (deleteImage env c input w))) = Some success_line
   ↔ deleted env c input w) ∧
  (¬ deleted env c input w →
   ∃ a, last (console (snd (deleteImage env c input w)))
        = Some {| stream := Err; args := a |}).
Proof.
  rewrite deleteImage_run. unfold deleted.
  assert (∀ e w0, ∃ a, last (console (snd (report e w0)))
                       = Some {| stream := Err; args := a |}) as Hrep.
  { intros e w0. destruct (report_extend e w0) as [a ->]. exists a.
    unfold extend. cbn [snd console]. apply last_snoc. }
  destruct (parsePath env c input) as [e|p].
  { destruct (Hrep e w) as [a ->].
    split; [split|]; [intros [=] | | eauto].
    intros (p & f & f' & Hp & _). discriminate Hp. }
  cbv zeta.
  destruct (axios_get env (requests w) (get_request c p)) as [e|f] eqn:Hget.
  { match goal with |- context [report ?x ?y] => destruct (Hrep x y) as [a ->] end.
    split; [split|]; [intros [=] | | eauto].
    intros (p' & f & f' & Hp & Hf & _). injection Hp as Hp. subst p'.
    rewrite Hget in Hf. discriminate Hf. }
  destruct (axios env (requests w ++ [get_request c p])
              (delete_request c p (data_sha f))) as [e|f'] eqn:Hdel.
  - match goal with |- context [report ?x ?y] => destruct (Hrep x y) as [a ->] end.
    split; [split|]; [intros [=] | | eauto].
    intros (p' & f0 & f' & Hp & Hf & Hd). injection Hp as Hp. subst p'.
    rewrite Hget in Hf. injection Hf as Hf. subst f0.
    rewrite Hdel in Hd. discriminate Hd.
  - unfold extend. cbn [snd console]. rewrite !app_assoc, last_snoc. split.
    + split; [intros _; eauto 10 | reflexivity].
    + intros H. exfalso. apply H. eauto 10.
Qed.

Lemma read_before_delete_app (history a b : list Request) :
  read_before_delete env c history a →
  read_before_delete env c (history ++ a) b →
  read_before_delete env c history (a ++ b).
Proof.
  intros Ha Hb i d Hi Hm.
  destruct (decide (i < List.length a)%nat) as [Hlt|Hge].
  - rewrite lookup_app_l in Hi by exact Hlt.
    destruct (Ha i d Hi Hm) as (j & p & f & -> & Hj & Hf & ->).
    exists j, p, f. repeat split.
    + rewrite lookup_app_l by lia. exact Hj.
    + rewrite take_app_le by lia. exact Hf.
  - rewrite lookup_app_r in Hi by lia.
    destruct (Hb _ d Hi Hm) as (j & p & f & Hij & Hj & Hf & ->).
    exists (List.length a + j)%nat, p, f. repeat split.
    + lia.
    + rewrite lookup_app_r by lia.
      replace (List.length a + j - List.length a)%nat with j by lia. exact Hj.
    + rewrite take_app_add, app_assoc. exact Hf.
Qed.

(** One [deleteImage] sends at most two requests, a DELETE only after
    its GET. *)
Lemma deleteImage_reads_before_deleting (input : string) (w : World) :
  ∃ new,
    requests (snd (deleteImage env c input w)) = requests w ++ new ∧
    (List.length new ≤ 2)%nat ∧
    read_before_delete env c (requests w) new.
Proof.
  eexists. split; [apply deleteImage_requests|].
  destruct (parsePath env c input) as [e|p].
  { split; [simpl; lia|]. intros i d Hi. destruct i; discriminate Hi. }
  destruct (axios_get env (requests w) (get_request c p)) as [e|f] eqn:Hget.
  - split; [simpl; lia|]. intros [|i] d Hi Hm; [|destruct i; discriminate Hi].
    injection Hi as <-. discriminate Hm.
  - split; [simpl; lia|]. intros [|[|i]] d Hi Hm.
    + injection Hi as <-. discriminate Hm.
    + injection Hi as <-. exists 0%nat, p, f. repeat split.
      cbn [take]. rewrite app_nil_r. exact Hget.
    + destruct i; discriminate Hi.
Qed.

(** X5.  In a batch, every DELETE is sent right after a GET of the same
    path that succeeded, and carries what the [sha] property of that
    answer held (the sha of a file's descriptor, nothing when the answer
    is an array); at most two requests are sent per input. *)
Theorem deleteImages_reads_before_deleting (inputs : list string) (w : World) :
  ∃ new,
    requests (snd (deleteImages env c inputs w)) = requests w ++ new ∧
    (List.length new ≤ 2 * List.length inputs)%nat ∧
    read_before_delete env c (requests w) new.
Proof.
  rewrite deleteImages_run. cbn [snd].
  revert w; induction inputs as [|input rest IH]; intros w.
  - exists []. rewrite app_nil_r. split; [reflexivity|]. split; [simpl; lia|].
    intros i d Hi. destruct i; discriminate Hi.
  - cbn [fold_left].
    destruct (deleteImage_reads_before_deleting input w) as (a & Ha & Hla & Hpa).
    assert (requests (after_item env c w input) = requests w ++ a) as Hw by exact Ha.
    destruct (IH (after_item env c w input)) as (b & Hb & Hlb & Hpb).
    rewrite Hw in Hb, Hpb. exists (a ++ b). split; [|split].
    + rewrite Hb, app_assoc. reflexivity.
    + rewrite length_app. simpl. lia.
    + apply read_before_delete_app; assumption.
Qed.

(** X6.  Batches compose: deleting [xs ++ ys] is deleting [xs] and then
    [ys] from the world that leaves; no failure in [xs] keeps [ys] from
    being processed. *)
Theorem deleteImages_app (xs ys : list string) (w : World) :
  deleteImages env c (xs ++ ys) w
    = deleteImages env c ys (snd (deleteImages env c xs w)).
Proof. rewrite !deleteImages_run, fold_left_app. reflexivity. Qed.

End DeleteMore.


Lemma deleteImage_last_line_witness :
  last (console (snd (Deleter.deleteImage (Sim.env Sim.remote Sim.local) Sim.acme
                        "images/none.png" Sim.start)))
    = Some {| stream := Err; args := [Text "❌ 錯誤:"; Text "找不到檔案: images/none.png"] |}.
Proof.
  destruct (proj2 (deleteImage_last_line (Sim.env Sim.remote Sim.local) Sim.acme
                     "images/none.png" Sim.start)) as [a Ha].
  - intros (p & f & f' & Hp & Hf & _). vm_compute in Hp. injection Hp as Hp.
    subst p. vm_compute in Hf. discriminate Hf.
  - rewrite Ha. vm_compute in Ha. injection Ha as <-. reflexivity.
Defined.

Lemma deleteImages_reads_before_deleting_witness :
  ∃ new,
    requests (snd (Deleter.deleteImages (Sim.env Sim.remote Sim.local) Sim.acme
                     ["images/old.png"; "images/old.png"] Sim.start)) = [] ++ new ∧
    new = [Deleter.get_request Sim.acme "images/old.png";
           Deleter.delete_request Sim.acme "images/old.png" (Some "sha0");
           Deleter.get_request Sim.acme "images/old.png"] ∧
    read_before_delete (Sim.env Sim.remote Sim.local) Sim.acme [] new.
Proof.
  destruct (deleteImages_reads_before_deleting (Sim.env Sim.remote Sim.local) Sim.acme
              ["images/old.png"; "images/old.png"] Sim.start) as (new & Hnew & _ & Hp).
  exists new. split; [exact Hnew|]. split; [|exact Hp].
  vm_compute in Hnew. rewrite <- Hnew. reflexivity.
Defined.

(** ** The uploader: one upload *)

Section UploadMore.

Import Uploader.

Variable env : Env.
Variable c : Config.

(** One [uploadImage], step by step. *)
Lemma uploadImage_run (localFilePath : string)
    (remotePath customFileName : option string) (w : World) :
  uploadImage env c localFilePath remotePath customFileName w
    = match disk env !! localFilePath with
      | None => (inl (Error ("檔案不存在: " +:+ localFilePath)), w)
      | Some Directory =>
          (inl (Error "EISDIR: illegal operation on a directory, read"), w)
      | Some (File content) =>
          let fileName :=
            upload_name (Date_now env (requests w)) localFilePath customFileName in
          let remoteFilePath := upload_path remotePath fileName in
          let request :=
            put_request c remoteFilePath fileName (Base64.encode content) in
          let lines := [out ("正在上傳圖片: " +:+ localFilePath);
                        out ("目標路徑: " +:+ remoteFilePath)] in
          match axios env (requests w) request with
          | inr response =>
              (inr (download_url response),
               extend w [request]
                 (lines ++ [out "✅ 上傳成功!";
                            out ("圖片 URL: " +:+ download_url response)]))
          | inl (AxiosError r m) =>
              (inl (api_error r m),
               extend w [request]
                 (lines ++ [{| stream := Err;
                               args := [Text "❌ 上傳失敗:"; data_or_message r m] |}]))
          | inl (Error m) => (inl (Error m), extend w [request] lines)
          end
      end.
Proof.
  unfold uploadImage, try_catch. unfold bind at 1. unfold existsSync.
  destruct (disk env !! localFilePath) as [[content|]|] eqn:Hdisk.
  - rewrite bool_decide_eq_true_2 by (eexists; reflexivity).
    unfold ret at 1.
    assert (∀ (k : string → M string),
              bind (match customFileName with
                    | Some custom =>
                        if String.eqb custom ""
                        then generateFileName env (Path.basename localFilePath)
                        else ret custom
                    | None => generateFileName env (Path.basename localFilePath)
                    end) k w
              = k (upload_name (Date_now env (requests w)) localFilePath customFileName) w)
      as Hname.
    { intros k. unfold upload_name, JS.opt_or_else, JS.or_else.
      destruct customFileName as [custom|]; [destruct (String.eqb custom "")|];
        reflexivity. }
    rewrite Hname. unfold bind at 1. unfold lift, fileToBase64, readFileSync.
    rewrite Hdisk. unfold bind, console_log, print, send. cbn [requests console].
    fold (upload_path remotePath
            (upload_name (Date_now env (requests w)) localFilePath customFileName)).
    cbv zeta.
    destruct (axios env (requests w) _) as [[m|r m]|f];
      unfold extend, out, api_error; cbn [app requests console isAxiosError exn_response exn_message];
      unfold bind, console_error, print, throw; cbn [app requests console];
      rewrite <- ?app_assoc; reflexivity.
  - rewrite bool_decide_eq_true_2 by (eexists; reflexivity).
    unfold ret at 1.
    destruct customFileName as [custom|]; [destruct (String.eqb custom "")|];
      unfold bind, generateFileName, now, ret, lift, fileToBase64, readFileSync;
      rewrite Hdisk; reflexivity.
  - rewrite bool_decide_eq_false_2 by (intros [? [=]]). reflexivity.
Qed.



(** X8.  [uploadImage] returns the download URL of the response exactly
    when the path names a regular file and the PUT succeeds.  It never
    throws an axios error: a refusal of the API reaches the caller as a
    plain error whose message starts with "GitHub API 錯誤: " and gives
    the status and the API's message. *)
Theorem uploadImage_outcome (localFilePath : string)
    (remotePath customFileName : option string) (w : World) :
  (∀ url,
     fst (uploadImage env c localFilePath remotePath customFileName w) = inr url
     ↔ ∃ content response,
         disk env !! localFilePath = Some (File content) ∧
         axios env (requests w)
           (upload_request env c localFilePath remotePath customFileName content w)
           = inr response ∧
         url = download_url response) ∧
  (∀ error,
     fst (uploadImage env c localFilePath remotePath customFileName w) = inl error →
     isAxiosError error = false) ∧
  (∀ content r m,
     disk env !! localFilePath = Some (File content) →
     axios env (requests w)
       (upload_request env c localFilePath remotePath customFileName content w)
       = inl (AxiosError r m) →
     fst (uploadImage env c localFilePath remotePath customFileName w)
       = inl (api_error r m)).
Proof.
  rewrite uploadImage_run. unfold upload_request.
  destruct (disk env !! localFilePath) as [[content|]|]; cbn [fst].
  - cbv zeta.
    destruct (axios env (requests w) _) as [[m|r m]|f] eqn:Hput; cbn [fst].
    + split; [|split].
      * intros url. split; [discriminate|].
        intros (content' & f & [= <-] & Hf & _). rewrite Hput in Hf. discriminate Hf.
      * intros error [= <-]. reflexivity.
      * intros content' r m' [= <-] Hf. rewrite Hput in Hf. discriminate Hf.
    + split; [|split].
      * intros url. split; [discriminate|].
        intros (content' & f & [= <-] & Hf & _). rewrite Hput in Hf. discriminate Hf.
      * intros error [= <-]. reflexivity.
      * intros content' r' m' [= <-] Hf. rewrite Hput in Hf.
        injection Hf as <- <-. reflexivity.
    + split; [|split].
      * intros url. split.
        -- intros [= <-]. exists content, f. auto.
        -- intros (content' & f' & [= <-] & Hf & ->). rewrite Hput in Hf.
           injection Hf as <-. reflexivity.
      * intros error [=].
      * intros content' r m' [= <-] Hf. rewrite Hput in Hf. discriminate Hf.
  - split; [|split].
    + intros url. split; [discriminate | intros (? & ? & [=] & _)].
    + intros error [= <-]. reflexivity.
    + intros content r m [=].
  - split; [|split].
    + intros url. split; [discriminate | intros (? & ? & [=] & _)].
    + intros error [= <-]. reflexivity.
    + intros content r m [=].
Qed.

End UploadMore.

Lemma uploadImage_outcome_witness :
  fst (Uploader.uploadImage (Sim.env Sim.remote Sim.local) Sim.acme "./photo.png"
         (Some "shots") (Some "n.png") Sim.start)
    = inr "https://raw.githubusercontent.com/download/n.png".
Proof.
  apply (proj1 (uploadImage_outcome (Sim.env Sim.remote Sim.local) Sim.acme
                  "./photo.png" (Some "shots") (Some "n.png") Sim.start)).
  exists [Byte.x4d; Byte.x61; Byte.x6e],
         (Sim.object_at (contents_url Sim.acme "shots/n.png") 0).
  vm_compute. repeat split.
Defined.

(** ** The uploader: batches *)

Section UploadBatchMore.

Import Uploader.

Variable env : Env.
Variable c : Config.
Variable remotePath : option string.




(** One turn of the loop. *)
Lemma uploadImages_loop_cons (filePath : string) (rest results : list string)
    (w : World) :
  uploadImages_loop env c (filePath :: rest) remotePath results w
    = match uploadImage env c filePath remotePath None w with
      | (inr url, w1) => uploadImages_loop env c rest remotePath (results ++ [url]) w1
      | (inl error, w1) =>
          uploadImages_loop env c rest remotePath (results ++ [""])
            (log_failure filePath error w1)
      end.
Proof.
  cbn [uploadImages_loop]. unfold bind at 1. unfold try_catch. unfold bind at 1.
  destruct (uploadImage env c filePath remotePath None w) as [[error|url] w1];
    reflexivity.
Qed.

(** The result of the loop does not depend on what was collected before. *)
Lemma uploadImages_loop_acc (filePaths : list string) :
  ∀ (results : list string) (w : World),
    uploadImages_loop env c filePaths remotePath results w
      = match uploadImages_loop env c filePaths remotePath [] w with
        | (inr added, w') => (inr (results ++ added), w')
        | (inl e, w') => (inl e, w')
        end.
Proof.
  induction filePaths as [|filePath rest IH]; intros results w.
  - cbn. now rewrite app_nil_r.
  - rewrite !uploadImages_loop_cons. cbn [app].
    destruct (uploadImage env c filePath remotePath None w) as [[error|url] w1].
    + rewrite (IH (results ++ [""])), (IH [""]).
      destruct (uploadImages_loop env c rest remotePath [] _) as [[e|added] w'];
        [reflexivity|]. now rewrite <- app_assoc.
    + rewrite (IH (results ++ [url])), (IH [url]).
      destruct (uploadImages_loop env c rest remotePath [] w1) as [[e|added] w'];
        [reflexivity|]. now rewrite <- app_assoc.
Qed.

(** X10.  Batches compose: the result for [xs ++ ys] is the result for
    [xs] followed by the result for [ys] run from the world [xs] left. *)
Theorem uploadImages_app (xs ys : list string) (w : World) :
  ∃ r1 w1 r2 w2,
    uploadImages env c xs remotePath w = (inr r1, w1) ∧
    uploadImages env c ys remotePath w1 = (inr r2, w2) ∧
    uploadImages env c (xs ++ ys) remotePath w = (inr (r1 ++ r2), w2).
Proof.
  revert w. unfold uploadImages.
  induction xs as [|x xs IH]; intros w.
  - destruct (uploadImages_loop_spec env c remotePath ys [] w) as (r2 & w2 & H2 & _).
    exists [], w, r2, w2. repeat split; assumption.
  - cbn [app]. rewrite !uploadImages_loop_cons. cbn [app].
    destruct (uploadImage env c x remotePath None w) as [[error|url] w1].
    + destruct (IH (log_failure x error w1)) as (r1 & w1' & r2 & w2 & H1 & H2 & H12).
      rewrite (uploadImages_loop_acc xs [""]), H1.
      rewrite (uploadImages_loop_acc (xs ++ ys) [""]), H12.
      exists ("" :: r1), w1', r2, w2. repeat split; assumption.
    + destruct (IH w1) as (r1 & w1' & r2 & w2 & H1 & H2 & H12).
      rewrite (uploadImages_loop_acc xs [url]), H1.
      rewrite (uploadImages_loop_acc (xs ++ ys) [url]), H12.
      exists (url :: r1), w1', r2, w2. repeat split; assumption.
Qed.

End UploadBatchMore.


(** ** The lister: [listImages] *)

Section ListImages.

Import Listing.

Variable api : Api.
Variable c : Config.

Lemma console_log_run (s : string) (w : World) :
  console_log s w = (inr tt, extend w [] [out s]).
Proof. unfold console_log, print, extend, out. now rewrite app_nil_r. Qed.

Lemma forEach_print_dir (dirs : list GitHubFileResponse) (w : World) :
  forEach dirs print_dir w = (inr tt, extend w [] (map dir_line dirs)).
Proof.
  revert w; induction dirs as [|d dirs IH]; intros w.
  - cbn. now rewrite extend_nil.
  - cbn [forEach map]. unfold bind. unfold print_dir at 1.
    rewrite console_log_run, IH, extend_extend. reflexivity.
Qed.

Lemma forEach_print_file (files : list GitHubFileResponse) (w : World) :
  forEach files print_file w = (inr tt, extend w [] (flat_map file_lines files)).
Proof.
  revert w; induction files as [|f files IH]; intros w.
  - cbn. now rewrite extend_nil.
  - cbn [forEach flat_map]. unfold bind. unfold print_file at 1. unfold bind.
    rewrite !console_log_run, IH, !extend_extend. reflexivity.
Qed.

(** What the [catch] block prints. *)
Lemma fail_run (dirPath : string) (error : Exn) (w : World) :
  ∃ a, fail dirPath error w
       = (inr (Exited 1), extend w [] [{| stream := Err; args := a |}]).
Proof.
  unfold fail, bind, console_error, print, ret, extend.
  destruct (isAxiosError error); [case_bool_decide|];
    eexists; cbn [requests console]; rewrite app_nil_r; reflexivity.
Qed.

(** One [listImages], step by step. *)
Lemma listImages_run (dirPath : string) (w : World) :
  let request := list_request c (clean dirPath) in
  listImages api c dirPath w
    = match api (requests w) request with
      | inl error => fail dirPath error (extend w [request] [query_line dirPath])
      | inr (OneFile data) =>
          (inr Finished,
           extend w [request]
             [query_line dirPath;
              out (newline +:+ "這是一個檔案:");
              out ("名稱: " +:+ name data);
              out ("大小: " +:+ Lister.formatSize (size_bytes data));
              out ("URL: " +:+ download_url data)])
      | inr (Entries data) =>
          (inr Finished,
           extend w [request] (query_line dirPath :: listing_report data))
      end.
Proof.
  intros request. unfold listImages, try_catch, attempt.
  unfold bind at 1. rewrite console_log_run. unfold bind at 1. unfold send.
  cbn [requests console extend]. rewrite app_nil_r. fold request.
  assert ({| requests := requests w ++ [request];
             console := console w ++ [out ("正在查詢目錄: " +:+
                          JS.or_else (clean dirPath) "(root)" +:+ "...")] |}
          = extend w [request] [query_line dirPath]) as -> by reflexivity.
  destruct (api (requests w) request) as [error|[data|data]]; [reflexivity| |].
  - unfold bind. rewrite !console_log_run, !extend_extend. reflexivity.
  - unfold listing_report, count_line. cbv zeta.
    set (files := List.filter is_file data). set (dirs := List.filter is_dir data).
    unfold bind at 1. rewrite console_log_run, extend_extend.
    unfold bind at 1.
    destruct dirs as [|d dirs]; destruct files as [|f files];
      unfold bind, ret;
      repeat first [ rewrite console_log_run | rewrite forEach_print_dir
                   | rewrite forEach_print_file | rewrite extend_extend ];
      cbn [app]; rewrite <- ?app_assoc, ?app_nil_r; reflexivity.
Qed.

Lemma clean_slash (p : string) : clean ("/" +:+ p) = p.
Proof.
  unfold clean, JS.startsWith. rewrite append_cons, append_nil_l.
  cbn [String.prefix]. destruct (ascii_dec "/" "/") as [_|H]; [|contradiction].
  destruct p; reflexivity.
Qed.

(** X11.  [listImages] never throws.  It sends exactly one request, a GET
    of the contents URL of the path with one leading '/' removed, on the
    configured branch.  It ends the process with status 1 exactly when
    that request fails, and returns normally exactly when it succeeds. *)
Theorem listImages_outcome (dirPath : string) (w : World) :
  let request := list_request c (clean dirPath) in
  ∃ ended w',
    listImages api c dirPath w = (inr ended, w') ∧
    requests w' = requests w ++ [request] ∧
    (ended = Exited 1 ↔ ∃ error, api (requests w) request = inl error) ∧
    (ended = Finished ↔ ∃ data, api (requests w) request = inr data) ∧
    clean ("/" +:+ dirPath) = dirPath.
Proof.
  intros request. pose proof (listImages_run dirPath w) as Hrun.
  cbv zeta in Hrun. fold request in Hrun. rewrite Hrun.
  destruct (api (requests w) request) as [error|[data|data]].
  - destruct (fail_run dirPath error (extend w [request] [query_line dirPath]))
      as [a ->].
    eexists _, _. split; [reflexivity|]. cbn [extend requests].
    rewrite app_nil_r.
    repeat split; try discriminate; try reflexivity; try apply clean_slash;
      try (intros [? [=]]); eauto.
  - eexists _, _. split; [reflexivity|]. cbn [extend requests].
    repeat split; try discriminate; try reflexivity; try apply clean_slash;
      try (intros [? [=]]); eauto.
  - eexists _, _. split; [reflexivity|]. cbn [extend requests].
    repeat split; try discriminate; try reflexivity; try apply clean_slash;
      try (intros [? [=]]); eauto.
Qed.

Lemma in_filter_file (data : list GitHubFileResponse) (f : GitHubFileResponse) :
  f ∈ data → type f = "file" → f ∈ List.filter is_file data.
Proof.
  intros Hf Ht. apply list_elem_of_In, filter_In. split.
  - apply list_elem_of_In, Hf.
  - unfold is_file. rewrite Ht. reflexivity.
Qed.

Lemma in_filter_dir (data : list GitHubFileResponse) (d : GitHubFileResponse) :
  d ∈ data → type d = "dir" → d ∈ List.filter is_dir data.
Proof.
  intros Hd Ht. apply list_elem_of_In, filter_In. split.
  - apply list_elem_of_In, Hd.
  - unfold is_dir. rewrite Ht. reflexivity.
Qed.

(** X12.  For a directory, [listImages] prints the query line and then
    the report of the listing: the counts, the directories, the files.
    Every entry of type "dir" has its line in it, and every entry of type
    "file" its two lines (name with formatted size, download URL). *)
Theorem listImages_reports_every_entry (dirPath : string) (w : World)
    (data : list GitHubFileResponse) :
  api (requests w) (list_request c (clean dirPath)) = inr (Entries data) →
  let printed := query_line dirPath :: listing_report data in
  console (snd (listImages api c dirPath w)) = console w ++ printed ∧
  (∀ d, d ∈ data → type d = "dir" → dir_line d ∈ printed) ∧
  (∀ f, f ∈ data → type f = "file" → ∀ l, l ∈ file_lines f → l ∈ printed).
Proof.
  intros Hapi printed. pose proof (listImages_run dirPath w) as Hrun.
  cbv zeta in Hrun. rewrite Hapi in Hrun. rewrite Hrun. split; [reflexivity|].
  subst printed. unfold listing_report. cbv zeta. split.
  - intros d Hd Ht. pose proof (in_filter_dir data d Hd Ht) as Hin.
    destruct (List.filter is_dir data) as [|d0 dirs]; [inversion Hin|].
    rewrite !elem_of_cons, !elem_of_app, !elem_of_cons, elem_of_app.
    right. right. left. right. left. apply list_elem_of_fmap. eauto.
  - intros f Hf Ht l Hl. pose proof (in_filter_file data f Hf Ht) as Hin.
    destruct (List.filter is_file data) as [|f0 files]; [inversion Hin|].
    rewrite !elem_of_cons, !elem_of_app, !elem_of_cons.
    right. right. right. left. right.
    apply list_elem_of_In, in_flat_map. exists f. split; apply list_elem_of_In; assumption.
Qed.

Lemma filter_nil_iff (test : GitHubFileResponse → bool)
    (data : list GitHubFileResponse) :
  List.filter test data = [] ↔ Forall (λ x, test x = false) data.
Proof.
  induction data as [|x data IH]; cbn [List.filter].
  - split; [constructor | reflexivity].
  - destruct (test x) eqn:Hx.
    + split; [discriminate | intros H; inversion H; congruence].
    + rewrite IH. split; [now constructor | intros H; now inversion H].
Qed.

Lemma empty_line_not_in_dirs (dirs : list GitHubFileResponse) :
  empty_line ∉ map dir_line dirs.
Proof.
  intros ([d Hd] & H & _)%list_elem_of_fmap.
  unfold empty_line, dir_line, out in H. injection H; intros; discriminate.
Qed.

Lemma empty_line_not_in_files (files : list GitHubFileResponse) :
  empty_line ∉ flat_map file_lines files.
Proof.
  intros H. apply list_elem_of_In, in_flat_map in H as (f & _ & H).
  unfold file_lines, empty_line, out in H.
  destruct H as [H|[H|[]]]; injection H; intros; discriminate.
Qed.

(** The report of a listing holds the notice "(空目錄)" exactly when the
    listing holds no entry of type "file" and none of type "dir". *)
Lemma listing_report_empty (data : list GitHubFileResponse) :
  empty_line ∈ listing_report data
  ↔ Forall (λ x, type x ≠ "file" ∧ type x ≠ "dir") data.
Proof.
  assert (Forall (λ x, type x ≠ "file" ∧ type x ≠ "dir") data
          ↔ List.filter is_file data = [] ∧ List.filter is_dir data = []) as ->.
  { rewrite !filter_nil_iff, <- Forall_and. apply Forall_iff. intros x.
    unfold is_file, is_dir. now rewrite !String.eqb_neq. }
  unfold listing_report. cbv zeta.
  assert (∀ f d, empty_line ≠ count_line f d) as Hcount.
  { intros f d H. unfold empty_line, count_line, out, newline in H.
    injection H; intros; discriminate. }
  destruct (List.filter is_dir data) as [|d dirs];
    destruct (List.filter is_file data) as [|f files];
    (split; [|first [ intros _; rewrite !elem_of_app; do 3 right;
                      apply list_elem_of_singleton; reflexivity
                    | intros [H1 H2]; discriminate ]]);
    auto; intros H; exfalso;
    repeat first [ rewrite elem_of_app in H | rewrite elem_of_cons in H ];
    repeat match goal with
           | H : _ ∨ _ |- _ => destruct H as [H|H]
           | H : empty_line = count_line _ _ |- _ => now apply Hcount in H
           | H : _ ∈ [] |- _ => inversion H
           | H : empty_line ∈ map dir_line _ |- _ =>
               now apply empty_line_not_in_dirs in H
           | H : empty_line ∈ flat_map file_lines _ |- _ =>
               now apply empty_line_not_in_files in H
           | H : empty_line = out _ |- _ => discriminate H
           end.
Qed.

(** X13.  When the API answers with an array, the lines [listImages]
    prints include the notice "(空目錄)" exactly when the array holds no
    entry of type "file" and none of type "dir" (in particular when it
    is empty): entries of another type are counted and shown nowhere. *)
Theorem listing_report_empty_notice (dirPath : string) (w : World)
    (data : list GitHubFileResponse) :
  api (requests w) (list_request c (clean dirPath)) = inr (Entries data) →
  ∃ printed,
    console (snd (listImages api c dirPath w)) = console w ++ printed ∧
    (out "(空目錄)" ∈ printed
     ↔ Forall (λ x, type x ≠ "file" ∧ type x ≠ "dir") data).
Proof.
  intros Hapi. pose proof (listImages_run dirPath w) as Hrun.
  cbv zeta in Hrun. rewrite Hapi in Hrun. rewrite Hrun.
  exists (query_line dirPath :: listing_report data). split; [reflexivity|].
  rewrite <- listing_report_empty. fold empty_line. rewrite elem_of_cons.
  split; [|now right]. intros [H|H]; [|exact H]. exfalso.
  unfold empty_line, query_line, out in H. injection H; intros; discriminate.
Qed.

End ListImages.

Lemma listing_report_empty_notice_witness :
  ∃ printed,
    console (snd (Listing.listImages SimListing.api Sim.acme "empty" Sim.start))
      = [] ++ printed ∧
    (out "(空目錄)" ∈ printed
     ↔ Forall (λ x : GitHubFileResponse, type x ≠ "file" ∧ type x ≠ "dir") []).
Proof.
  apply (listing_report_empty_notice SimListing.api Sim.acme "empty" Sim.start []).
  vm_compute. reflexivity.
Defined.


Lemma listImages_reports_every_entry_witness :
  console (snd (Listing.listImages SimListing.api Sim.acme "/images" Sim.start))
    = [] ++ query_line "/images"
            :: listing_report [SimListing.entry "a.png" "file" 1536;
                               SimListing.entry "old" "dir" 0;
                               SimListing.entry "b.jpg" "file" 1048575].
Proof.
  apply (listImages_reports_every_entry SimListing.api Sim.acme "/images" Sim.start).
  vm_compute. reflexivity.
Defined.

(** ** The command lines *)

Section CommandLines.

Lemma forEach_console_log (lines : list string) (w : World) :
  forEach lines console_log w = (inr tt, extend w [] (map out lines)).
Proof.
  revert w; induction lines as [|l lines IH]; intros w.
  - cbn. now rewrite extend_nil.
  - cbn [forEach map]. unfold bind. rewrite console_log_run, IH, extend_extend.
    reflexivity.
Qed.

Lemma main_failed_run (error : Exn) (w : World) :
  main_failed error w
    = (inr (Exited 1),
       extend w [] [{| stream := Err; args := [Text "錯誤:"; Text (exn_message error)] |}]).
Proof.
  unfold main_failed, bind, console_error, print, ret, extend. cbn [requests console].
  now rewrite app_nil_r.
Qed.

(** X14.  The delete command never throws.  It ends with status 1 exactly
    when it is given no argument or the configuration is incomplete, and
    it then sends nothing; otherwise it runs the batch over all its
    arguments and ends normally, whatever happens to the deletions. *)
Theorem delete_command_exit (env : Env) (vars : gmap string string)
    (args : list string) (w : World) :
  ∃ ended w',
    DeleterCLI.main env vars args w = (inr ended, w') ∧
    (ended = Exited 1 ↔ args = [] ∨ ∃ error, constructor vars = inl error) ∧
    (ended = Exited 1 → requests w' = requests w) ∧
    (∀ c, args ≠ [] → constructor vars = inr c →
          ended = Finished ∧ w' = snd (Deleter.deleteImages env c args w)).
Proof.
  unfold DeleterCLI.main. destruct args as [|arg args].
  - unfold bind. rewrite forEach_console_log. eexists _, _.
    split; [reflexivity|]. cbn [extend requests]. rewrite app_nil_r.
    split; [split; auto|]. split; [auto|]. intros c0 Hne. contradiction.
  - unfold try_catch. unfold bind at 1. unfold lift.
    destruct (constructor vars) as [error|c0].
    + rewrite main_failed_run. eexists _, _. split; [reflexivity|].
      cbn [extend requests]. rewrite app_nil_r.
      split; [split; eauto|]. split; [auto|]. intros c0 _ Hc. discriminate Hc.
    + unfold bind. rewrite deleteImages_run. cbn [ret].
      eexists _, _. split; [reflexivity|]. split; [split|split].
      * discriminate.
      * intros [Hnil|[error Herr]]; discriminate.
      * discriminate.
      * intros c1 _ Hc. injection Hc as <-.
        split; [reflexivity | now rewrite deleteImages_run].
Qed.

(** X15.  The list command never throws.  Without an argument it lists
    the root of the repository.  It ends with status 1 exactly when the
    configuration is incomplete (nothing is then sent) or the one request
    it sends fails. *)
Theorem list_command_exit (api : Listing.Api) (vars : gmap string string)
    (args : list string) (w : World) :
  let targetPath := default "" (head args) in
  ∃ ended w',
    ListerCLI.main api vars args w = (inr ended, w') ∧
    match constructor vars with
    | inl _ => ended = Exited 1 ∧ requests w' = requests w
    | inr c =>
        let request := Listing.list_request c (Listing.clean targetPath) in
        requests w' = requests w ++ [request] ∧
        (ended = Exited 1 ↔ ∃ error, api (requests w) request = inl error)
    end.
Proof.
  intros targetPath. unfold ListerCLI.main, try_catch.
  unfold bind at 1. unfold lift.
  destruct (constructor vars) as [error|c].
  - rewrite main_failed_run. eexists _, _. split; [reflexivity|].
    cbn [extend requests]. rewrite app_nil_r. auto.
  - assert (JS.opt_or_else (args !! 0%nat) "" = targetPath) as ->.
    { subst targetPath. destruct args as [|a args]; [reflexivity|].
      cbn. unfold JS.or_else. destruct (String.eqb_spec a ""); congruence. }
    pose proof (listImages_run api c targetPath w) as Hrun.
    cbv zeta in Hrun |- *. rewrite Hrun.
    set (request := Listing.list_request c (Listing.clean targetPath)).
    destruct (api (requests w) request) as [error|[data|data]].
    + destruct (fail_run targetPath error
                  (extend w [request] [query_line targetPath])) as [a ->].
      eexists _, _. split; [reflexivity|]. cbn [extend requests].
      rewrite app_nil_r. split; [reflexivity|]. split; eauto.
    + eexists _, _. split; [reflexivity|]. cbn [extend requests].
      split; [reflexivity|]. split; [discriminate | intros [? [=]]].
    + eexists _, _. split; [reflexivity|]. cbn [extend requests].
      split; [reflexivity|]. split; [discriminate | intros [? [=]]].
Qed.

Lemma print_results_run (urls : list string) :
  ∀ (index : nat) (w : World),
    ∃ lines, UploaderCLI.print_results urls index w = (inr tt, extend w [] lines) ∧
             List.length lines = List.length urls.
Proof.
  induction urls as [|url urls IH]; intros index w.
  - exists []. cbn. now rewrite extend_nil.
  - cbn [UploaderCLI.print_results]. unfold bind. rewrite console_log_run.
    destruct (IH (S index) (extend w [] [out (JS.show_N (N.of_nat (index + 1)) +:+ ". "
                   +:+ (if String.eqb url "" then "失敗" else url))]))
      as (lines & -> & Hlen).
    eexists. rewrite extend_extend. split; [reflexivity|]. simpl. now rewrite Hlen.
Qed.


(** X16.  The upload command never throws, and ends with status 1 exactly
    when it has no argument, or the configuration is incomplete, or no
    argument exists on disk, or exactly one does and its upload fails.
    With two or more existing arguments it always ends normally, whatever
    happens to the uploads.  In the first three cases nothing is sent. *)
Theorem upload_command_exit (env : Env) (vars : gmap string string)
    (args : list string) (w : World) :
  let filePaths := List.filter (existsSync env) args in
  let nonFilePaths := List.filter (λ arg, negb (existsSync env arg)) args in
  ∃ ended w',
    UploaderCLI.main env vars args w = (inr ended, w') ∧
    (ended = Exited 1 ↔
       args = [] ∨
       (∃ error, constructor vars = inl error) ∨
       filePaths = [] ∨
       (∃ c filePath error,
          constructor vars = inr c ∧ filePaths = [filePath] ∧
          fst (Uploader.uploadImage env c filePath
                 (nonFilePaths !! 0%nat) (nonFilePaths !! 1%nat) w) = inl error)) ∧
    (args = [] ∨ (∃ error, constructor vars = inl error) ∨ filePaths = [] →
     requests w' = requests w).
Proof.
  intros filePaths nonFilePaths. unfold UploaderCLI.main.
  destruct args as [|arg args].
  { unfold bind. rewrite forEach_console_log. eexists _, _.
    split; [reflexivity|]. cbn [extend requests]. rewrite app_nil_r.
    split; [split; auto|auto]. }
  unfold try_catch. unfold bind at 1. unfold lift.
  destruct (constructor vars) as [error|c] eqn:Hc.
  { rewrite main_failed_run. eexists _, _. split; [reflexivity|].
    cbn [extend requests]. rewrite app_nil_r. split; [split; eauto|auto]. }
  fold filePaths nonFilePaths.
  destruct filePaths as [|p [|p' rest]] eqn:Hfiles.
  - unfold throw. rewrite main_failed_run. eexists _, _. split; [reflexivity|].
    cbn [extend requests]. rewrite app_nil_r. split; [split; auto|auto].
  - unfold bind at 1.
    destruct (Uploader.uploadImage env c p (nonFilePaths !! 0%nat)
                (nonFilePaths !! 1%nat) w) as [[error|url] w1] eqn:Hup.
    + rewrite main_failed_run. eexists _, _. split; [reflexivity|].
      split; [split|].
      * intros _. do 3 right. exists c, p, error. rewrite Hup. auto.
      * reflexivity.
      * intros [H|[[e H]|H]]; discriminate.
    + cbn [ret]. eexists _, _. split; [reflexivity|]. split; [split|].
      * discriminate.
      * intros [H|[[e H]|[H|(c' & p0 & e & Hc' & Hp & He)]]]; try discriminate.
        injection Hc' as <-. injection Hp as <-. rewrite Hup in He. discriminate He.
      * intros [H|[[e H]|H]]; discriminate.
  - unfold bind at 1. rewrite console_log_run. unfold bind at 1.
    unfold Uploader.uploadImages.
    destruct (uploadImages_loop_spec env c (nonFilePaths !! 0%nat)
                (p :: p' :: rest) [] (extend w [] [out ("批次上傳 " +:+
                   JS.show_N (N.of_nat (List.length (p :: p' :: rest))) +:+ " 個檔案...")]))
      as (urls & w1 & -> & _).
    cbn [app]. unfold bind at 1. rewrite console_log_run. unfold bind.
    destruct (print_results_run urls 0 (extend w1 [] [out (Listing.newline +:+ "上傳結果:")]))
      as (lines & -> & _).
    cbn [ret]. eexists _, _. split; [reflexivity|]. split; [split|].
    + discriminate.
    + intros [H|[[e H]|[H|(c' & p0 & e & _ & Hp & _)]]]; discriminate.
    + intros [H|[[e H]|H]]; discriminate.
Qed.


End CommandLines.

(* ------------------------------------------------------------------ *)
(** ** [parsePath] on CDN URLs *)

Section CdnUrl.

Import RegExp Deleter.

(** A match of a pattern that begins with a literal text begins with
    that text. *)
Lemma run_literal (l : list ascii) rs : ∀ s cap k res,
  run (seq (map Chr l ++ rs)) s cap k = Some res →
  String.prefix (string_of_list_ascii l) s = true.
Proof.
  induction l as [|a l IH]; intros s cap k res H.
  - now destruct s.
  - cbn [map app seq run] in H. destruct s as [|b s]; [discriminate|].
    destruct (Ascii.eqb_spec b a) as [->|]; [|discriminate].
    cbn [string_of_list_ascii String.prefix].
    destruct (ascii_dec a a); [|contradiction]. exact (IH _ _ _ _ H).
Qed.

(** So a pattern that begins with a literal text finds nothing in a
    string where the text does not occur. *)
Lemma search_absent (l : list ascii) rs (s : string) :
  JS.indexOf s (string_of_list_ascii l) = None →
  search (seq (map Chr l ++ rs)) s = None.
Proof.
  induction s as [|b s IH]; intros H.
  - cbn [search JS.indexOf] in *.
    destruct (String.prefix (string_of_list_ascii l) "") eqn:Hp; [discriminate|].
    destruct (run _ "" None _) as [res|] eqn:Hrun; [|reflexivity].
    apply run_literal in Hrun. congruence.
  - cbn [search JS.indexOf] in *.
    destruct (String.prefix (string_of_list_ascii l) (String b s)) eqn:Hp;
      [discriminate|].
    destruct (run _ (String b s) None _) as [res|] eqn:Hrun.
    { apply run_literal in Hrun. congruence. }
    apply IH. destruct (JS.indexOf s _); [discriminate | reflexivity].
Qed.

(** The raw-content pattern finds nothing where the name of the raw
    host does not occur. *)
Lemma exec_rawPattern_absent (c : Config) (x : string) :
  plain_config c = true → JS.indexOf x raw_host = None →
  exec (rawPattern c) x = Some (inr None).
Proof.
  intros Hc Hx. unfold exec. rewrite (parse_rawPattern c Hc).
  change (raw_text c) with
    (raw_host +:+ ("/" +:+ owner c +:+ "/" +:+ repo c +:+ "/" +:+ branch c +:+ "/")).
  rewrite list_ascii_of_append, map_app, <- app_assoc.
  rewrite search_absent; [reflexivity|].
  now rewrite string_of_list_ascii_of_string.
Qed.

Lemma tokenize_cdnPattern (c : Config) :
  plain_config c = true →
  tokenize (cdnPattern c)
    = LOk (map TChr (list_ascii_of_string (cdn_text c))
             ++ TOpen false
             :: map TChr (list_ascii_of_string ("@" +:+ branch c))
             ++ [TClose; TQuant QOpt; TChr "/"; TOpen true; TDot; TQuant QPlus; TClose]).
Proof.
  unfold plain_config. rewrite !andb_true_iff. intros [[Ho Hr] Hb].
  change (cdnPattern c) with
    ("cdn" +:+ String "\" (String "." ("jsdelivr" +:+
       String "\" (String "." ("net/gh/" +:+ owner c +:+ "/" +:+ repo c +:+
         String "(" (String "?" (String ":" ("@" +:+ branch c +:+ ")?/(.+)")))))))).
  rewrite (tokenize_plain "cdn") by reflexivity.
  rewrite tokenize_escaped by reflexivity.
  rewrite (tokenize_plain "jsdelivr") by reflexivity.
  rewrite tokenize_escaped by reflexivity.
  rewrite (tokenize_plain "net/gh/") by reflexivity.
  rewrite (tokenize_plain (owner c)) by exact Ho.
  rewrite (tokenize_plain "/") by reflexivity.
  rewrite (tokenize_plain (repo c)) by exact Hr.
  change (tokenize (String "(" (String "?" (String ":" ("@" +:+ branch c +:+ ")?/(.+)")))))
    with (lcons (TOpen false) (tokenize ("@" +:+ branch c +:+ ")?/(.+)"))).
  rewrite (tokenize_plain "@") by reflexivity.
  rewrite (tokenize_plain (branch c)) by exact Hb.
  change (tokenize ")?/(.+)")
    with (LOk [TClose; TQuant QOpt; TChr "/"; TOpen true; TDot; TQuant QPlus; TClose]).
  unfold cdn_text. cbn [lcons]. f_equal.
  rewrite !list_ascii_of_append, !map_app, <- !app_assoc. reflexivity.
Qed.

(** With a plain configuration the CDN pattern is the literal text, the
    optional [@branch], a slash and the capturing group [(.+)]. *)
Lemma parse_cdnPattern (c : Config) :
  plain_config c = true →
  parse (cdnPattern c)
    = POk (seq (map Chr (list_ascii_of_string (cdn_text c))
                  ++ [Opt (Group None
                             (seq (map Chr (list_ascii_of_string ("@" +:+ branch c)))));
                      Chr "/"; Group (Some 1%nat) (seq [Plus Any])])).
Proof.
  intros Hc. unfold parse. rewrite (tokenize_cdnPattern c Hc), build_chars.
  cbn [build]. rewrite build_chars.
  cbn [build quantified quantify rev app seq]. rewrite !app_nil_r.
  rewrite !rev_involutive, <- !app_assoc. reflexivity.
Qed.

Lemma run_tail (p : string) :
  p ≠ "" → single_line p = true →
  run (seq [Chr "/"; Group (Some 1%nat) (seq [Plus Any])]) ("/" +:+ p) None
      (λ _ cap', Some cap') = Some (Some p).
Proof.
  intros Hne Hp. rewrite append_cons, append_nil_l. cbn [seq run].
  rewrite Ascii.eqb_refl. apply run_plus_any; [exact Hne | exact Hp |].
  cbn [run]. now rewrite consumed_all.
Qed.

Lemma exec_cdnPattern (c : Config) (pinned : bool) (p : string) :
  plain_config c = true → p ≠ "" → single_line p = true →
  exec (cdnPattern c) (cdn_url c pinned p) = Some (inr (Some p)).
Proof.
  intros Hc Hne Hp. unfold exec. rewrite (parse_cdnPattern c Hc).
  set (at_branch := list_ascii_of_string ("@" +:+ branch c)).
  set (tail := [Chr "/"; Group (Some 1%nat) (seq [Plus Any])]).
  assert (search (seq (map Chr (list_ascii_of_string (cdn_text c))
                         ++ Opt (Group None (seq (map Chr at_branch))) :: tail))
                 (cdn_url c pinned p) = Some (Some p)) as ->; [|reflexivity].
  assert (run (seq (map Chr (list_ascii_of_string (cdn_text c))
                      ++ Opt (Group None (seq (map Chr at_branch))) :: tail))
              (cdn_text c +:+ (if pinned then "@" +:+ branch c else "") +:+ "/" +:+ p)
              None (λ _ cap', Some cap') = Some (Some p)) as Hrun.
  { rewrite <- (string_of_list_ascii_of_string (cdn_text c)) at 2.
    rewrite seq_app_run.
    change (seq (Opt (Group None (seq (map Chr at_branch))) :: tail))
      with (Seq (Opt (Group None (seq (map Chr at_branch)))) (seq tail)).
    cbn [run]. rewrite iterate_S. destruct pinned.
    - rewrite <- (app_nil_r (map Chr at_branch)).
      rewrite <- (string_of_list_ascii_of_string ("@" +:+ branch c)) at 1.
      fold at_branch. rewrite seq_app_run. cbn [seq run].
      assert (shorter ("/" +:+ p) (("@" +:+ branch c) +:+ "/" +:+ p) = true) as ->.
      { unfold shorter. apply Nat.ltb_lt. rewrite !length_append.
        simpl String.length. lia. }
      cbn [iterate]. subst tail. rewrite (run_tail p Hne Hp). reflexivity.
    - rewrite append_nil_l. subst at_branch.
      rewrite append_cons, append_nil_l.
      rewrite (append_cons "/" "" p), append_nil_l.
      cbn [list_ascii_of_string map seq run].
      change (Ascii.eqb "/" "@") with false. cbv iota.
      rewrite <- (append_nil_l p) at 1. rewrite <- (append_cons "/" "" p).
      subst tail. exact (run_tail p Hne Hp). }
  apply search_hit in Hrun. revert Hrun.
  unfold cdn_url.
  change (list_ascii_of_string (cdn_text c)) with
    ("c"%char :: list_ascii_of_string
       ("dn.jsdelivr.net/gh/" +:+ owner c +:+ "/" +:+ repo c)).
  cbn [map app].
  change ("https://" +:+ cdn_text c +:+ (if pinned then "@" +:+ branch c else "")
            +:+ "/" +:+ p) with
    (String "h" (String "t" (String "t" (String "p" (String "s" (String ":"
       (String "/" (String "/" (cdn_text c +:+
          (if pinned then "@" +:+ branch c else "") +:+ "/" +:+ p))))))))).
  rewrite !search_skip by reflexivity. trivial.
Qed.

(** X18.  With a configuration free of pattern syntax, a jsDelivr URL of
    the repository, with or without [@branch], resolves to the path
    after it, for every non-empty single-line path, provided the name of
    the raw host occurs nowhere in the URL (the raw-content pattern is
    tried first and would win). *)
Theorem parsePath_cdn_url (remote : gmap string GitHubFileResponse)
    (files : gmap string FsEntry) (c : Config) (pinned : bool) (p : string) :
  plain_config c = true → p ≠ "" → RegExp.single_line p = true →
  JS.indexOf (cdn_url c pinned p) raw_host = None →
  parsePath (Sim.env remote files) c (cdn_url c pinned p) = inr p.
Proof.
  intros Hc Hne Hp Hraw. unfold parsePath.
  change (JS.startsWith (cdn_url c pinned p) "http") with true. cbv iota.
  change (regexp_match (Sim.env remote files)) with Sim.regexp.
  unfold Sim.regexp.
  rewrite (exec_rawPattern_absent c _ Hc Hraw).
  rewrite (exec_cdnPattern c pinned p Hc Hne Hp). reflexivity.
Qed.

End CdnUrl.

Lemma parsePath_cdn_url_witness :
  Deleter.parsePath (Sim.env ∅ ∅) Sim.acme (cdn_url Sim.acme true "a/b.png")
    = inr "a/b.png" ∧
  Deleter.parsePath (Sim.env ∅ ∅) Sim.acme (cdn_url Sim.acme false "a/b.png")
    = inr "a/b.png".
Proof.
  split.
  - apply (parsePath_cdn_url ∅ ∅ Sim.acme true "a/b.png");
      [reflexivity | discriminate | reflexivity | vm_compute; reflexivity].
  - apply (parsePath_cdn_url ∅ ∅ Sim.acme false "a/b.png");
      [reflexivity | discriminate | reflexivity | vm_compute; reflexivity].
Defined.

(* ------------------------------------------------------------------ *)
(** ** The last resort of [parsePath] *)

Section Fallback.

Import Deleter.

Lemma prefix_length (r s : string) :
  String.prefix r s = true → (String.length r ≤ String.length s)%nat.
Proof.
  revert s; induction r as [|x r IH]; intros [|y s] H; simpl in *;
    try lia; try discriminate.
  destruct (ascii_dec x y); [|discriminate]. specialize (IH s H). lia.
Qed.

Lemma prefix_append (r s t : string) :
  (String.length r ≤ String.length s)%nat →
  String.prefix r (s +:+ t) = String.prefix r s.
Proof.
  revert s; induction r as [|x r IH]; intros [|y s] H.
  - now destruct t.
  - reflexivity.
  - simpl in H. lia.
  - rewrite append_cons. cbn [String.prefix].
    destruct (ascii_dec x y); [apply IH; simpl in H; lia | reflexivity].
Qed.

Lemma indexOf_bound (r : string) : ∀ (s : string) (i : nat),
  JS.indexOf s r = Some i → (i + String.length r ≤ String.length s)%nat.
Proof.
  induction s as [|y s IH]; intros i H; cbn [JS.indexOf] in H.
  - destruct (String.prefix r "") eqn:Hp; [|discriminate].
    injection H as <-. apply prefix_length in Hp. lia.
  - destruct (String.prefix r (String y s)) eqn:Hp.
    + injection H as <-. apply prefix_length in Hp. lia.
    + destruct (JS.indexOf s r) as [j|] eqn:Hj; [|discriminate].
      injection H as <-. specialize (IH j eq_refl). simpl. lia.
Qed.

(** The first occurrence of a text in a string is its first occurrence
    in every extension of the string. *)
Lemma indexOf_append (r t : string) : ∀ (s : string) (i : nat),
  JS.indexOf s r = Some i → JS.indexOf (s +:+ t) r = Some i.
Proof.
  induction s as [|y s IH]; intros i H.
  - pose proof (indexOf_bound _ _ _ H) as Hb. simpl in Hb.
    destruct r; [|simpl in Hb; lia]. cbn [JS.indexOf] in H. simpl in H.
    injection H as <-. rewrite append_nil_l. now destruct t.
  - pose proof (indexOf_bound _ _ _ H) as Hb.
    rewrite append_cons. cbn [JS.indexOf] in H |- *.
    rewrite <- append_cons, prefix_append by lia.
    destruct (String.prefix r (String y s)); [exact H|].
    destruct (JS.indexOf s r) as [j|] eqn:Hj; [|discriminate].
    rewrite (IH j eq_refl). exact H.
Qed.

Lemma substring_add (s : string) : ∀ (m n : nat),
  JS.substring (JS.substring s m) n = JS.substring s (m + n).
Proof.
  induction s as [|y s IH]; intros [|m] n; try reflexivity.
  - now destruct n.
  - exact (IH m n).
Qed.

Lemma substring_all (s : string) (n : nat) :
  (String.length s ≤ n)%nat → JS.substring s n = "".
Proof.
  revert n; induction s as [|y s IH]; intros [|n] H; simpl in *;
    try reflexivity; try lia.
  apply IH. lia.
Qed.

Lemma length_substring (s : string) : ∀ (n : nat),
  String.length (JS.substring s n) = (String.length s - n)%nat.
Proof.
  induction s as [|y s IH]; intros [|n]; try reflexivity. exact (IH n).
Qed.

(** What [substring] returns is a suffix. *)
Lemma endsWith_substring (s : string) (n : nat) :
  JS.endsWith s (JS.substring s n) = true.
Proof.
  unfold JS.endsWith. rewrite length_substring.
  destruct (Nat.le_gt_cases n (String.length s)) as [H|H].
  - replace (String.length s - (String.length s - n))%nat with n by lia.
    apply prefix_refl.
  - rewrite (substring_all s n) by lia.
    replace (String.length s - (String.length s - n))%nat with (String.length s) by lia.
    rewrite substring_all by lia. reflexivity.
Qed.

Lemma fallback_suffix (c : Config) (x guess : string) :
  fallback c x = Some guess → JS.endsWith x guess = true.
Proof.
  unfold fallback.
  destruct (JS.indexOf x (repo c)) as [i|]; [|discriminate].
  destruct (JS.indexOf _ (branch c)) as [j|]; [|discriminate].
  intros [= <-]. rewrite substring_add. apply endsWith_substring.
Qed.

(** X19.  When neither pattern matches, [parsePath] never fails and only
    ever cuts the input at the front: its result is a suffix of the
    input.  It is the whole input when the input does not begin with
    "http", or does not contain the repository name, or does not
    contain the branch name after it. *)
Theorem parsePath_unmatched_is_suffix (env : Env) (c : Config) (x : string) :
  (JS.startsWith x "http" = true →
   regexp_match env (rawPattern c) x = inr None ∧
   regexp_match env (cdnPattern c) x = inr None) →
  ∃ p, parsePath env c x = inr p ∧
       JS.endsWith x p = true ∧
       (JS.startsWith x "http" = false ∨ fallback c x = None → p = x).
Proof.
  intros H. unfold parsePath.
  destruct (JS.startsWith x "http") eqn:Hx.
  - destruct (H eq_refl) as [-> ->].
    destruct (fallback c x) as [guess|] eqn:Hf.
    + exists guess. split; [reflexivity|]. split; [exact (fallback_suffix c x guess Hf)|].
      intros [?|?]; discriminate.
    + exists x. split; [reflexivity|]. split; [|reflexivity].
      rewrite <- (append_nil_l x) at 1. apply endsWith_append.
  - exists x. split; [reflexivity|]. split; [|reflexivity].
    rewrite <- (append_nil_l x) at 1. apply endsWith_append.
Qed.

(** X20.  The last resort on a URL of the form
    <a><repo><b><branch><one character><p>, where the repository name
    does not occur earlier in <a><repo> and the branch name does not
    occur earlier in <b><branch>: when neither pattern matches, the
    result is <p>, whatever ASCII character follows the branch name.
    (The code steps over one UTF-16 unit, which is one byte of the
    string exactly for an ASCII character.) *)
Theorem parsePath_other_url (env : Env) (c : Config) (a b p : string) (sep : ascii) :
  let x := a +:+ repo c +:+ b +:+ branch c +:+ String sep p in
  (N_of_ascii sep < 128)%N →
  JS.startsWith x "http" = true →
  regexp_match env (rawPattern c) x = inr None →
  regexp_match env (cdnPattern c) x = inr None →
  JS.indexOf (a +:+ repo c) (repo c) = Some (String.length a) →
  JS.indexOf (b +:+ branch c) (branch c) = Some (String.length b) →
  parsePath env c x = inr p.
Proof.
  intros x _ Hx Hraw Hcdn Hrepo Hbranch. unfold parsePath.
  rewrite Hx, Hraw, Hcdn. unfold fallback. subst x.
  rewrite <- (append_assoc a (repo c)).
  rewrite (indexOf_append _ _ _ _ Hrepo).
  rewrite <- (length_append a (repo c)), substring_append.
  rewrite <- (append_assoc b (branch c)).
  rewrite (indexOf_append _ _ _ _ Hbranch).
  rewrite <- (length_append b (branch c)), <- substring_add, substring_append.
  now destruct p.
Qed.

End Fallback.

Lemma parsePath_unmatched_is_suffix_witness :
  ∃ p, Deleter.parsePath (Sim.env ∅ ∅) Sim.acme
         "https://github.com/acme/pics/blob/main/images/old.png" = inr p ∧
       JS.endsWith "https://github.com/acme/pics/blob/main/images/old.png" p = true ∧
       (JS.startsWith "https://github.com/acme/pics/blob/main/images/old.png" "http"
          = false ∨
        Deleter.fallback Sim.acme
          "https://github.com/acme/pics/blob/main/images/old.png" = None →
        p = "https://github.com/acme/pics/blob/main/images/old.png").
Proof.
  apply (parsePath_unmatched_is_suffix (Sim.env ∅ ∅) Sim.acme
           "https://github.com/acme/pics/blob/main/images/old.png").
  intros _. split; vm_compute; reflexivity.
Defined.

Lemma parsePath_other_url_witness :
  Deleter.parsePath (Sim.env ∅ ∅) Sim.acme
    ("https://github.com/acme/" +:+ "pics" +:+ "/blob/" +:+ "main"
       +:+ String "/" "images/old.png")
    = inr "images/old.png".
Proof.
  apply (parsePath_other_url (Sim.env ∅ ∅) Sim.acme
           "https://github.com/acme/" "/blob/" "images/old.png" "/");
    vm_compute; reflexivity.
Defined.

(* ------------------------------------------------------------------ *)
(** ** Generated names and the clock *)

Section GeneratedNames.

Import Uploader.

Lemma append_inj_l (a s t : string) : a +:+ s = a +:+ t → s = t.
Proof.
  induction a as [|x a IH]; [trivial|].
  rewrite !append_cons. intros [= H]. exact (IH H).
Qed.

Lemma show_N_no_minus (n : N) : "-"%char ∉ list_ascii_of_string (JS.show_N n).
Proof.
  unfold JS.show_N. induction (N.to_uint n) as [|u IH|u IH|u IH|u IH|u IH|u IH|u IH|u IH|u IH|u IH];
    simpl; [apply not_elem_of_nil|..];
    (intros [H|H]%elem_of_cons; [discriminate H | exact (IH H)]).
Qed.

Lemma show_Z_inj (a b : Z) : JS.show_Z a = JS.show_Z b → a = b.
Proof.
  assert (∀ q n, "-" +:+ JS.show_N (Npos q) ≠ JS.show_N n) as Hsign.
  { intros q n H. apply (show_N_no_minus n). rewrite <- H.
    rewrite append_cons. simpl. apply elem_of_cons. now left. }
  destruct a as [|p|p], b as [|q|q]; unfold JS.show_Z; intros H;
    try reflexivity;
    try (apply show_N_inj in H; simpl in H; congruence);
    try (exfalso; exact (Hsign _ _ H));
    try (exfalso; symmetry in H; exact (Hsign _ _ H)).
  apply append_inj_l, show_N_inj in H. congruence.
Qed.

(** X21.  The name [generateFileName] returns contains no slash, so an
    upload under a generated name lands directly in the remote
    directory; and the names generated for one original name at two
    clock readings are equal only if the readings are: two uploads of
    the same file in different milliseconds never share a remote path. *)
Theorem generateFileName_by_clock (env env' : Env) (originalName : string)
    (w w' : World) :
  ∃ generated generated',
    generateFileName env originalName w = (inr generated, w) ∧
    generateFileName env' originalName w' = (inr generated', w') ∧
    (Path.slash ∉ list_ascii_of_string generated) ∧
    (generated = generated' ↔ Date_now env (requests w) = Date_now env' (requests w')) ∧
    (∀ remotePath,
       upload_path remotePath generated = upload_path remotePath generated' ↔
       Date_now env (requests w) = Date_now env' (requests w')).
Proof.
  exists (stamped (Date_now env (requests w)) originalName),
         (stamped (Date_now env' (requests w')) originalName).
  split; [reflexivity|]. split; [reflexivity|].
  split; [apply stamped_no_slash|].
  assert (∀ t t', stamped t originalName = stamped t' originalName ↔ t = t') as Hinj.
  { intros t t'. split; [|now intros ->]. unfold stamped. intros H.
    apply append_inj_l, append_inj_l, append_inj_r in H. exact (show_Z_inj _ _ H). }
  split; [apply Hinj|].
  intros remotePath. rewrite <- Hinj. unfold upload_path.
  split; [|now intros ->]. intros H. apply append_inj_l in H.
  exact (append_inj_l _ _ _ H).
Qed.

End GeneratedNames.
